(** * Syncra: the track resolution and playlist materialisation pipeline

    A shallow embedding of [src/Syncra/main.py] (class
    [PlaylistConverterThread]) and the properties of it that the
    specification states.

    Conventions of the embedding.
    - A Python [str] is a [string] of bytes; [strip] and [lower] act on the
      ASCII range (the whitespace and the letters of ASCII).
    - A Python [float] is the rational it denotes; every arithmetic
      operation rounds its exact result to binary64, to nearest, ties to
      even ([PyFloat.rne]).  All values of this program are far inside the
      normal range, so neither overflow nor subnormals are modelled.
    - A call that may raise returns a [result]; the Plex server and the
      progress signal are explicit state. *)

From Stdlib Require Import ZArith QArith Qround Qpower Bool List String Ascii Lia Lqa.
From Stdlib Require Import Permutation Sorted DecimalString.
Import ListNotations.

(* ================================================================== *)
(** ** Python strings *)

Module PyStr.
Local Open Scope string_scope.

(** [str.isspace] on one ASCII character: TAB, LF, VT, FF, CR, the four
    separators FS..US and the blank. *)
Definition is_space (c : ascii) : bool :=
  let n := nat_of_ascii c in
  ((9 <=? n)%nat && (n <=? 13)%nat) || ((28 <=? n)%nat && (n <=? 32)%nat).

Fixpoint lstrip (s : string) : string :=
  match s with
  | EmptyString => EmptyString
  | String c s' => if is_space c then lstrip s' else s
  end.

Fixpoint rstrip (s : string) : string :=
  match s with
  | EmptyString => EmptyString
  | String c s' =>
      match rstrip s' with
      | EmptyString => if is_space c then EmptyString else String c EmptyString
      | r => String c r
      end
  end.

(** [s.strip()] *)
Definition strip (s : string) : string := rstrip (lstrip s).

Definition lower_ascii (c : ascii) : ascii :=
  let n := nat_of_ascii c in
  if (65 <=? n)%nat && (n <=? 90)%nat then ascii_of_nat (n + 32) else c.

(** [s.lower()] *)
Fixpoint lower (s : string) : string :=
  match s with
  | EmptyString => EmptyString
  | String c s' => String (lower_ascii c) (lower s')
  end.

(** [strip_prefix p s] is what follows [p] in [s] when [s] starts with [p]. *)
Fixpoint strip_prefix (p s : string) : option string :=
  match p with
  | EmptyString => Some s
  | String a p' =>
      match s with
      | EmptyString => None
      | String b s' => if Ascii.eqb a b then strip_prefix p' s' else None
      end
  end.

(** [s.startswith(p)] *)
Definition startswith (s p : string) : bool :=
  match strip_prefix p s with Some _ => true | None => false end.

(** [s.split(sep, 1)] for a non-empty [sep]: [Some (l, r)] stands for the
    two-element list [[l, r]] cut at the leftmost occurrence of [sep], and
    [None] for the one-element list [[s]]. *)
Fixpoint split_once (sep s : string) : option (string * string) :=
  match strip_prefix sep s with
  | Some r => Some (EmptyString, r)
  | None =>
      match s with
      | EmptyString => None
      | String c s' =>
          match split_once sep s' with
          | Some (l, r) => Some (String c l, r)
          | None => None
          end
      end
  end.

(** [sep in s] *)
Definition contains (sep s : string) : bool :=
  match split_once sep s with Some _ => true | None => false end.

(** [sep] occurs in [s] at offset [n]. *)
Definition occurs_at (sep s : string) (n : nat) : Prop :=
  exists l r, s = l ++ sep ++ r /\ String.length l = n.

End PyStr.

(* ================================================================== *)
(** ** Track descriptors *)

Local Open Scope string_scope.

(** The separator of a track descriptor, ["Title - Artist"]. *)
Definition SEP : string := " - ".

(** [PlaylistConverterThread.parse_track_info] *)
Definition parse_track_info (track : string) : string * string :=
  match PyStr.split_once SEP track with
  | Some (l, r) => (PyStr.strip l, PyStr.strip r)
  | None => (PyStr.strip track, "")
  end.

(** [PlaylistConverterThread.get_local_tracks], from the lines of the file
    on: a line is kept when it is not blank and does not start with [#], and
    it is kept stripped. *)
Definition get_local_tracks (content : list string) : list string :=
  map PyStr.strip
    (filter (fun line =>
               negb (String.eqb (PyStr.strip line) "")
               && negb (PyStr.startswith line "#"))
            content).

(* ================================================================== *)
(** ** Python floats *)

Module PyFloat.
Local Open Scope Q_scope.

(** Nearest integer, ties to the even one: the rounding of the significand,
    and Python's [round(x)]. *)
Definition rhe (x : Q) : Z :=
  let f := Qfloor x in
  match Qcompare (x - inject_Z f) (1 # 2) with
  | Lt => f
  | Gt => (f + 1)%Z
  | Eq => if Z.even f then f else (f + 1)%Z
  end.

(** The binade of a positive rational: [2 ^ ilog2 x <= x < 2 ^ (ilog2 x + 1)]. *)
Definition ilog2 (x : Q) : Z :=
  let e := (Z.log2 (Qnum x) - Z.log2 (Zpos (Qden x)))%Z in
  if Qle_bool (2 ^ e) x then e else (e - 1)%Z.

(** Rounding of a positive rational to 53 significant bits. *)
Definition rne_pos (x : Q) : Q :=
  let s := (ilog2 x - 52)%Z in
  inject_Z (rhe (x * 2 ^ (- s))) * 2 ^ s.

(** Rounding to binary64, to nearest, ties to even. *)
Definition rne (x : Q) : Q :=
  Qred match Qcompare x 0 with
       | Eq => 0
       | Gt => rne_pos x
       | Lt => - rne_pos (- x)
       end.

(** [float(n)], and the conversion of the [int] operand of a mixed operation *)
Definition of_int (n : Z) : Q := rne (inject_Z n).

(** [a / b] on two [int]s, which CPython rounds once, from the exact
    quotient; [b] is not [0] (Python raises [ZeroDivisionError] there, the
    callers below test it first). *)
Definition int_truediv (a b : Z) : Q := rne (inject_Z a / inject_Z b).

Definition fmul (x y : Q) : Q := rne (x * y).
Definition fadd (x y : Q) : Q := rne (x + y).

(** [x > y] and [x >= y] *)
Definition fgt (x y : Q) : bool := negb (Qle_bool x y).
Definition fge (x y : Q) : bool := Qle_bool y x.

(** [int(x)]: truncation towards zero *)
Definition py_int (x : Q) : Z := Z.quot (Qnum x) (Zpos (Qden x)).

(** [round(x)] *)
Definition py_round (x : Q) : Z := rhe x.

(** The literals [0.7] and [0.3] *)
Definition c07 : Q := rne (7 # 10).
Definition c03 : Q := rne (3 # 10).

End PyFloat.

(* ================================================================== *)
(** ** Results of calls that may raise *)

Inductive result (A : Type) : Type :=
| Ok (a : A)
| Raise (msg : string).
Arguments Ok {A} a.
Arguments Raise {A} msg.

(** Python truthiness of an optional string: [None] and [''] are false. *)
Definition truthy (o : option string) : bool :=
  match o with
  | Some s => negb (String.eqb s "")
  | None => false
  end.

(** [o if o else ""] *)
Definition or_empty (o : option string) : string :=
  match o with Some s => s | None => "" end.

(* ================================================================== *)
(** ** Provider records and the fetch stage *)

(** [int(completed / total * 50)], the value the fetch loops emit and the
    match loop adds to [50]. *)
Definition half_progress (completed total : Z) : Z :=
  PyFloat.py_int (PyFloat.fmul (PyFloat.int_truediv completed total) (PyFloat.of_int 50)).

(** The formula as the specification words it:
    [round(completed / total * half_range)]. *)
Definition spec_half_progress (completed total half_range : Z) : Z :=
  PyFloat.py_round
    (PyFloat.fmul (PyFloat.int_truediv completed total) (PyFloat.of_int half_range)).

Definition len {A} (l : list A) : Z := Z.of_nat (List.length l).

Module Tidal.
(** One element of [tracks_data['items']]: [title] is [item['title']] and
    [artist_name] is [item['artist']['name']]; [None] when the lookup
    raises. *)
Record Item := mkItem { title : option string; artist_name : option string }.

Record Playlist := mkPlaylist {
  name : string;                 (* playlist_data['title'] *)
  image : option string;         (* playlist_data['image'] *)
  items : list Item;             (* tracks_data['items'] *)
  totalNumberOfItems : Z }.
End Tidal.

(** [PlaylistConverterThread.process_tidal_track] *)
Definition process_tidal_track (item : Tidal.Item) : option string :=
  match Tidal.title item, Tidal.artist_name item with
  | Some t, Some a => Some (t ++ " - " ++ a)
  | _, _ => None
  end.

(** The body of the [as_completed] loop of [get_tidal_playlist_info]:
    [k] is the position, in [items], of the item whose future completed. *)
Definition tidal_step (items : list Tidal.Item) (total : Z)
    (st : list string * list Z) (k : nat) : list string * list Z :=
  let '(tracks, emitted) := st in
  let tracks' :=
    match nth_error items k with
    | Some item =>
        match process_tidal_track item with
        | Some track => (tracks ++ [track])%list
        | None => tracks
        end
    | None => tracks
    end in
  (tracks', (emitted ++ [half_progress (len tracks') total])%list).

(** [PlaylistConverterThread.get_tidal_playlist_info], from the two answers
    of the Tidal API on.  [completion] is the order in which [as_completed]
    yields the futures, a permutation of the positions of [items]. The
    result is the track list, the name, the image and the progress values
    emitted. *)
Definition get_tidal_playlist_info (p : Tidal.Playlist) (completion : list nat)
  : result (list string * string * option string) * list Z :=
  match Tidal.items p with
  | [] => (Ok ([], Tidal.name p, Tidal.image p), [])
  | _ =>
      if (Tidal.totalNumberOfItems p =? 0)%Z
      then (Raise "division by zero", [])
      else
        let '(tracks, emitted) :=
          fold_left (tidal_step (Tidal.items p) (Tidal.totalNumberOfItems p))
                    completion ([], []) in
        (Ok (tracks, Tidal.name p, Tidal.image p), emitted)
  end.

Module Spotify.
(** [item['track']]: its [name] and the [name]s of its [artists]. *)
Record Track := mkTrack { name : string; artists : list string }.

Record Playlist := mkPlaylist {
  pl_name : string;              (* playlist_data['name'] *)
  images : list string;          (* the [url]s of playlist_data['images'] *)
  items : list Track }.
End Spotify.

Definition spotify_track_string (t : Spotify.Track) : result string :=
  match Spotify.artists t with
  | a :: _ => Ok (Spotify.name t ++ " - " ++ a)
  | [] => Raise "list index out of range"
  end.

Fixpoint spotify_tracks (items : list Spotify.Track) : result (list string) :=
  match items with
  | [] => Ok []
  | t :: rest =>
      match spotify_track_string t with
      | Raise e => Raise e
      | Ok s =>
          match spotify_tracks rest with
          | Raise e => Raise e
          | Ok l => Ok (s :: l)
          end
      end
  end.

(** [PlaylistConverterThread.get_spotify_playlist_info], from the answer of
    the Spotify API on; it emits no progress. *)
Definition get_spotify_playlist_info (p : Spotify.Playlist)
  : result (list string * string * option string) :=
  match spotify_tracks (Spotify.items p) with
  | Raise e => Raise e
  | Ok tracks => Ok (tracks, Spotify.pl_name p, hd_error (Spotify.images p))
  end.

Module Deezer.
Record Track := mkTrack { title : string; artist_name : string }.

Record Playlist := mkPlaylist {
  pl_title : string;
  picture_xl : option string;
  tracks : list Track;
  nb_tracks : Z }.
End Deezer.

Definition deezer_track_string (t : Deezer.Track) : string :=
  Deezer.title t ++ " - " ++ Deezer.artist_name t.

Definition deezer_step (total : Z) (st : list string * list Z) (t : Deezer.Track)
  : list string * list Z :=
  let '(tracks, emitted) := st in
  let tracks' := (tracks ++ [deezer_track_string t])%list in
  (tracks', (emitted ++ [half_progress (len tracks') total])%list).

(** [PlaylistConverterThread.get_deezer_playlist_info] *)
Definition get_deezer_playlist_info (p : Deezer.Playlist)
  : result (list string * string * option string) * list Z :=
  match Deezer.tracks p with
  | [] => (Ok ([], Deezer.pl_title p, Deezer.picture_xl p), [])
  | _ =>
      if (Deezer.nb_tracks p =? 0)%Z
      then (Raise "division by zero", [])
      else
        let '(tracks, emitted) :=
          fold_left (deezer_step (Deezer.nb_tracks p)) (Deezer.tracks p) ([], []) in
        (Ok (tracks, Deezer.pl_title p, Deezer.picture_xl p), emitted)
  end.

(* ================================================================== *)
(** ** The match engine *)

Module Plex.
(** A track of the library as [find_best_match] reads it: [title] and
    [originalTitle] are attributes that may be unset, [artist] is the title
    of what [plex_track.artist()] returns, [None] when that is falsy. *)
Record Track := mkTrack {
  title : option string;
  originalTitle : option string;
  artist : option string;
  ratingKey : Z }.

(** A playlist of the server. *)
Record Playlist := mkPlaylist {
  pl_title : string;
  pl_items : list Track;
  pl_poster : option string }.

(** What [createPlaylist] and the poster upload change. *)
Record Server := mkServer { playlists : list Playlist }.

(** What the server answers during one run: the section lookup and its
    [searchTracks], and whether [createPlaylist] and the poster request
    raise.  A [createPlaylist] that raises has created nothing. *)
Record Env := mkEnv {
  sectionByID : result (string -> result (list Track));
  createPlaylist_error : option string;
  poster_error : option string }.
End Plex.

Section MatchEngine.

(** [fuzz.token_set_ratio], of the fuzzywuzzy package: an [int] between 0
    and 100. *)
Variable token_set_ratio : string -> string -> Z.

Definition title_score (title : string) (plex_track : Plex.Track) : Z :=
  let plex_title := if truthy (Plex.title plex_track)
                    then or_empty (Plex.title plex_track) else "" in
  token_set_ratio (PyStr.lower title) (PyStr.lower plex_title).

Definition artist_score (artist : string) (plex_track : Plex.Track) : Z :=
  if negb (String.eqb artist "") && truthy (Plex.originalTitle plex_track)
  then token_set_ratio (PyStr.lower artist)
                       (PyStr.lower (or_empty (Plex.originalTitle plex_track)))
  else
    match Plex.artist plex_track with
    | Some artist_title =>
        token_set_ratio (PyStr.lower artist) (PyStr.lower artist_title)
    | None => 0%Z
    end.

(** [(title_score * 0.7) + (artist_score * 0.3)] *)
Definition combined_score (title artist : string) (plex_track : Plex.Track) : Q :=
  PyFloat.fadd
    (PyFloat.fmul (PyFloat.of_int (title_score title plex_track)) PyFloat.c07)
    (PyFloat.fmul (PyFloat.of_int (artist_score artist plex_track)) PyFloat.c03).

(** The body of the loop over the candidates, on [(best_match, best_score)]. *)
Definition best_step (title artist : string)
    (st : option Plex.Track * Q) (plex_track : Plex.Track) : option Plex.Track * Q :=
  let score := combined_score title artist plex_track in
  if PyFloat.fgt score (snd st) then (Some plex_track, score) else st.

Definition best_of (title artist : string) (all_tracks : list Plex.Track)
  : option Plex.Track * Q :=
  fold_left (best_step title artist) all_tracks (None, 0%Q).

Definition NONE_HAS_NO_TITLE : string :=
  "'NoneType' object has no attribute 'title'".

(** The evaluation of the message of the accepted branch,
    [best_match.title] and
    [best_match.originalTitle or best_match.artist().title]. *)
Definition matched_message (best_match : option Plex.Track) : result unit :=
  match best_match with
  | None => Raise NONE_HAS_NO_TITLE
  | Some m =>
      if truthy (Plex.originalTitle m) then Ok tt
      else match Plex.artist m with
           | Some _ => Ok tt
           | None => Raise NONE_HAS_NO_TITLE
           end
  end.

(** [PlaylistConverterThread.find_best_match]: [Ok (Some m)] is a match,
    [Ok None] is no match. *)
Definition find_best_match
    (searchTracks : string -> result (list Plex.Track)) (track : string)
  : result (option Plex.Track) :=
  let '(title, artist) := parse_track_info track in
  match searchTracks title with
  | Raise e => Raise e
  | Ok all_tracks =>
      let '(best_match, best_score) := best_of title artist all_tracks in
      if PyFloat.fge best_score 70
      then match matched_message best_match with
           | Raise e => Raise e
           | Ok _ => Ok best_match
           end
      else Ok None
  end.

(* ================================================================== *)
(** ** The resolution loop and the materializer *)

(** The loop of [create_plex_playlist] over [enumerate(tracks)], from
    position [i] on.  An exception leaves the loop; the values emitted so far
    stay emitted. *)
Fixpoint resolve_loop
    (searchTracks : string -> result (list Plex.Track)) (total_tracks : Z)
    (i : Z) (tracks : list string)
    (plex_tracks : list Plex.Track) (not_found_tracks : list string)
    (emitted : list Z)
  : result (list Plex.Track * list string) * list Z :=
  match tracks with
  | [] => (Ok (plex_tracks, not_found_tracks), emitted)
  | track :: rest =>
      match find_best_match searchTracks track with
      | Raise e => (Raise e, emitted)
      | Ok found =>
          let emitted' :=
            (emitted ++ [(50 + half_progress (i + 1) total_tracks)%Z])%list in
          match found with
          | Some plex_track =>
              resolve_loop searchTracks total_tracks (i + 1) rest
                (plex_tracks ++ [plex_track])%list not_found_tracks emitted'
          | None =>
              resolve_loop searchTracks total_tracks (i + 1) rest
                plex_tracks (not_found_tracks ++ [track])%list emitted'
          end
      end
  end.

Definition NO_MATCHES : string := "No matching tracks found in your Plex library".

(** The handler of [create_plex_playlist]:
    [raise ValueError(f"Error creating Plex playlist: {e}")] *)
Definition creating_error (e : string) : string :=
  "Error creating Plex playlist: " ++ e.

(** The poster step: its exception is logged and dropped. *)
Definition set_poster (env : Plex.Env) (playlist_image_url : option string)
    (p : Plex.Playlist) : Plex.Playlist :=
  if truthy playlist_image_url then
    match Plex.poster_error env with
    | Some _ => p
    | None => Plex.mkPlaylist (Plex.pl_title p) (Plex.pl_items p) playlist_image_url
    end
  else p.

(** [PlaylistConverterThread.create_plex_playlist]: the outcome, the server
    after the call and the progress values emitted. *)
Definition create_plex_playlist (env : Plex.Env)
    (tracks : list string) (playlist_name : string)
    (playlist_image_url : option string) (srv : Plex.Server)
  : result unit * Plex.Server * list Z :=
  match Plex.sectionByID env with
  | Raise e => (Raise (creating_error e), srv, [])
  | Ok searchTracks =>
      match resolve_loop searchTracks (len tracks) 0 tracks [] [] [] with
      | (Raise e, emitted) => (Raise (creating_error e), srv, emitted)
      | (Ok (plex_tracks, not_found_tracks), emitted) =>
          match plex_tracks with
          | [] => (Raise (creating_error NO_MATCHES), srv, emitted)
          | _ :: _ =>
              match Plex.createPlaylist_error env with
              | Some e => (Raise (creating_error e), srv, emitted)
              | None =>
                  let plex_playlist :=
                    Plex.mkPlaylist playlist_name plex_tracks None in
                  (Ok tt,
                   Plex.mkServer
                     (Plex.playlists srv
                        ++ [set_poster env playlist_image_url plex_playlist])%list,
                   emitted)
              end
          end
      end
  end.

(* ================================================================== *)
(** ** A conversion run *)

(** What the providers answer during one run. *)
Record Providers := mkProviders {
  spotify : result Spotify.Playlist;
  deezer : result Deezer.Playlist;
  tidal : result Tidal.Playlist;
  tidal_completion : list nat }.

Definition fetch (pv : Providers) (playlist_source : string)
  : result (list string * string * option string) * list Z :=
  if PyStr.contains "open.spotify.com" playlist_source then
    match spotify pv with
    | Raise e => (Raise e, [])
    | Ok p => (get_spotify_playlist_info p, [])
    end
  else if PyStr.contains "deezer.com" playlist_source then
    match deezer pv with
    | Raise e => (Raise e, [])
    | Ok p => get_deezer_playlist_info p
    end
  else if PyStr.contains "tidal.com" playlist_source then
    match tidal pv with
    | Raise e => (Raise e, [])
    | Ok p => get_tidal_playlist_info p (tidal_completion pv)
    end
  else (Raise "Unsupported playlist source", []).

(** [PlaylistConverterThread.run]: [Ok tt] is the [finished] signal,
    [Raise e] the [error] signal; then the server and every value of the
    [progress_update] signal, in order. *)
Definition run (pv : Providers) (env : Plex.Env) (playlist_source : string)
    (srv : Plex.Server) : result unit * Plex.Server * list Z :=
  match fetch pv playlist_source with
  | (Raise e, emitted) => (Raise e, srv, emitted)
  | (Ok (tracks, playlist_name, playlist_image_url), emitted) =>
      let '(r, srv', emitted') :=
        create_plex_playlist env tracks playlist_name playlist_image_url srv in
      (r, srv', (emitted ++ emitted')%list)
  end.

End MatchEngine.

(** A stand-in for [fuzz.token_set_ratio] in the examples, which compare
    only empty strings and equal lower-case words: there the package
    answers [0] and [100]. *)
Definition word_ratio (s1 s2 : string) : Z :=
  if String.eqb s1 "" || String.eqb s2 "" then 0%Z
  else if String.eqb s1 s2 then 100%Z else 0%Z.

(* ================================================================== *)
(** ** The pair the match engine works with *)

(** The pair [find_best_match] gets for a provider record: the fetch stage
    formats the record as one string, and [parse_track_info] cuts that
    string again. *)
Definition canonical_of_tidal (item : Tidal.Item) : option (string * string) :=
  option_map parse_track_info (process_tidal_track item).

Definition canonical_of_spotify (t : Spotify.Track) : result (string * string) :=
  match spotify_track_string t with
  | Ok s => Ok (parse_track_info s)
  | Raise e => Raise e
  end.

Definition canonical_of_deezer (t : Deezer.Track) : string * string :=
  parse_track_info (deezer_track_string t).

(* ================================================================== *)
(** ** Specification vocabulary for the match engine *)

(** [c] is the first element of [l] whose score is the maximum of the
    scores of [l]: everything before it scores less, nothing after it scores
    more. *)
Definition first_maximum {A : Type} (score : A -> Q) (l : list A) (c : A) : Prop :=
  exists pre post,
    l = (pre ++ c :: post)%list
    /\ (forall x, In x pre -> (score x < score c)%Q)
    /\ (forall x, In x post -> (score x <= score c)%Q).

(** What the loop of [find_best_match] has established once it has gone
    through the candidates [l]. *)
Definition best_inv {A : Type} (score : A -> Q) (l : list A) (st : option A * Q) : Prop :=
  match fst st with
  | None => snd st = 0%Q /\ forall x, In x l -> (score x <= 0)%Q
  | Some c => snd st = score c /\ (0 < score c)%Q /\ first_maximum score l c
  end.

(** Candidates of the examples. *)
Definition song_by_x (key : Z) : Plex.Track :=
  Plex.mkTrack (Some "Song") (Some "X") None key.

Definition song_untagged : Plex.Track :=
  Plex.mkTrack (Some "Song") None None 7.

Definition song_with_artist : Plex.Track :=
  Plex.mkTrack (Some "Song") None (Some "X") 8.

(* ================================================================== *)
(** ** Specification vocabulary for the resolution loop and the run *)

Section ResolutionVocabulary.

Variable token_set_ratio : string -> string -> Z.
Variable searchTracks : string -> result (list Plex.Track).

(** Resolving [track] returns, with a match or without. *)
Definition resolves (track : string) : Prop :=
  exists found, find_best_match token_set_ratio searchTracks track = Ok found.

(** The matches of [tracks], in the order of [tracks]. *)
Definition matches_of (tracks : list string) : list Plex.Track :=
  flat_map (fun track =>
              match find_best_match token_set_ratio searchTracks track with
              | Ok (Some plex_track) => [plex_track]
              | _ => []
              end) tracks.

(** The tracks of [tracks] without a match, in the order of [tracks]. *)
Definition misses_of (tracks : list string) : list string :=
  filter (fun track =>
            match find_best_match token_set_ratio searchTracks track with
            | Ok None => true
            | _ => false
            end) tracks.

End ResolutionVocabulary.

(** The values the match loop emits for the positions [i + 1] to [i + k] of a
    list of [total] tracks. *)
Definition match_progress (total i : Z) (k : nat) : list Z :=
  map (fun j => (50 + half_progress (i + Z.of_nat j) total)%Z) (seq 1 k).

(** The counts the providers announce cover the tracks they deliver, and
    every future of the Tidal fetch completes once. *)
Definition counts_consistent (pv : Providers) : Prop :=
  (forall p, deezer pv = Ok p -> (len (Deezer.tracks p) <= Deezer.nb_tracks p)%Z)
  /\ (forall p, tidal pv = Ok p ->
        (len (Tidal.items p) <= Tidal.totalNumberOfItems p)%Z
        /\ Permutation (tidal_completion pv) (seq 0 (List.length (Tidal.items p)))).

(** The library and the providers of the examples. *)
Definition library (title : string) : result (list Plex.Track) :=
  if String.eqb title "Song" then Ok [song_by_x 1]
  else if String.eqb title "Tune" then Ok [Plex.mkTrack (Some "Tune") None None 9]
  else if String.eqb title "Other" then Raise "timed out"
  else Ok [].

Definition plex (poster_error : option string) : Plex.Env :=
  Plex.mkEnv (Ok library) None poster_error.

Definition empty_server : Plex.Server := Plex.mkServer [].

Definition tidal_mix : Tidal.Playlist :=
  Tidal.mkPlaylist "Mix" None
    [Tidal.mkItem (Some "A") (Some "X"); Tidal.mkItem (Some "B") (Some "Y")] 2.

Definition deezer_mix : Deezer.Playlist :=
  Deezer.mkPlaylist "Mix" (Some "http://img")
    [Deezer.mkTrack "Song" "X"; Deezer.mkTrack "Nothing" "Y"; Deezer.mkTrack "Missing" "Z"] 3.

Definition providers (completion : list nat) : Providers :=
  mkProviders (Raise "unreachable") (Ok deezer_mix) (Ok tidal_mix) completion.

(** The values of a fetch loop: in order, by the formula, at most [50]. *)
Definition fetch_values (emitted : list Z) : Prop :=
  StronglySorted Z.le emitted
  /\ forall v, In v emitted ->
       (0 <= v <= 50)%Z
       /\ exists completed total,
            (0 <= completed <= total)%Z /\ (0 < total)%Z
            /\ v = half_progress completed total.

(* ================================================================== *)
(** ** Vocabulary for the further properties *)

(** The string of a Tidal item when [process_tidal_track] builds one. *)
Definition well_formed_tidal (item : Tidal.Item) : list string :=
  match process_tidal_track item with
  | Some track => [track]
  | None => []
  end.

(* ================================================================== *)
(** ** The other fetchers of [PlaylistConverterThread] *)

(** The handler of [get_deezer_tracks]:
    [raise ValueError(f"Error fetching Deezer playlist: {e}")] *)
Definition deezer_tracks_error (e : string) : string :=
  "Error fetching Deezer playlist: " ++ e.

(** The body of the loop of [get_deezer_tracks] over
    [enumerate(playlist.tracks)], on [(tracks, emitted, i)]. *)
Definition deezer_tracks_step (total_tracks : Z)
    (st : list string * list Z * Z) (t : Deezer.Track) : list string * list Z * Z :=
  let '(tracks, emitted, i) := st in
  ((tracks ++ [deezer_track_string t])%list,
   (emitted ++ [half_progress (i + 1) total_tracks])%list,
   (i + 1)%Z).

(** [PlaylistConverterThread.get_deezer_tracks], from the answer of
    [get_playlist] on. *)
Definition get_deezer_tracks (answer : result Deezer.Playlist)
  : result (list string) * list Z :=
  match answer with
  | Raise e => (Raise (deezer_tracks_error e), [])
  | Ok p =>
      match Deezer.tracks p with
      | [] => (Ok [], [])
      | _ =>
          if (Deezer.nb_tracks p =? 0)%Z
          then (Raise (deezer_tracks_error "division by zero"), [])
          else
            let '(tracks, emitted, _) :=
              fold_left (deezer_tracks_step (Deezer.nb_tracks p))
                        (Deezer.tracks p) ([], [], 0%Z) in
            (Ok tracks, emitted)
      end
  end.

Module SpotifyPage.
(** One answer of [playlist_tracks] or [next]: [next] is the URL of the
    following page, [None] on the last one. *)
Record t := mk {
  items : list Spotify.Track;
  next : option string;
  total : Z }.
End SpotifyPage.

Definition NONE_NOT_SUBSCRIPTABLE : string :=
  "'NoneType' object is not subscriptable".

(** The [while results:] loop of [get_spotify_tracks].  [pages] are the
    answers the client gives one after the other, the current one first; an
    answer that is missing is [None]. *)
Fixpoint spotify_pages_loop (pages : list SpotifyPage.t)
    (tracks : list string) (emitted : list Z)
  : result (list string) * list Z :=
  match pages with
  | [] => (Ok tracks, emitted)
  | results :: following =>
      match spotify_tracks (SpotifyPage.items results) with
      | Raise e => (Raise e, emitted)
      | Ok new_tracks =>
          let tracks' := (tracks ++ new_tracks)%list in
          if truthy (SpotifyPage.next results) then
            match following with
            | [] => (Raise NONE_NOT_SUBSCRIPTABLE, emitted)
            | results' :: _ =>
                if (SpotifyPage.total results' =? 0)%Z
                then (Raise "division by zero", emitted)
                else
                  spotify_pages_loop following tracks'
                    (emitted
                       ++ [half_progress (len tracks')
                                         (SpotifyPage.total results')])%list
            end
          else (Raise NONE_NOT_SUBSCRIPTABLE, emitted)
      end
  end.

Definition spotify_tracks_error (e : string) : string :=
  "Error fetching Spotify playlist: " ++ e.

(** [PlaylistConverterThread.get_spotify_tracks].  [has_client] tells
    whether the object has a [spotify_client] attribute (the class does not
    set one). *)
Definition get_spotify_tracks (has_client : bool) (pages : list SpotifyPage.t)
  : result (list string) * list Z :=
  if has_client then
    match spotify_pages_loop pages [] [] with
    | (Raise e, emitted) => (Raise (spotify_tracks_error e), emitted)
    | (Ok tracks, emitted) => (Ok tracks, emitted)
    end
  else
    (Raise (spotify_tracks_error
              "'PlaylistConverterThread' object has no attribute 'spotify_client'"),
     []).

(* ================================================================== *)
(** ** The anonymous Spotify token *)

Module SpotifyAnonymousAuth.
(** The object: [access_token] and [token_expiration]. *)
Record t := mk { access_token : option string; token_expiration : Q }.

(** [__init__] *)
Definition init : t := mk None 0%Q.

(** The JSON of the answer: its two keys, [None] when the key is missing. *)
Record Answer := mkAnswer {
  accessToken : option string;
  accessTokenExpirationTimestampMs : option Z }.

(** [get_token] at the time [now] ([time.time()]), with what the request
    answers when it is made: the result, the object after the call, and
    whether the request was made. *)
Definition get_token (self : t) (now : Q) (answer : result Answer)
  : result string * t * bool :=
  if truthy (access_token self) && PyFloat.fgt (token_expiration self) now
  then (Ok (or_empty (access_token self)), self, false)
  else
    match answer with
    | Raise e => (Raise e, self, true)
    | Ok data =>
        match accessToken data with
        | None => (Raise "'accessToken'", self, true)
        | Some token =>
            match accessTokenExpirationTimestampMs data with
            | None =>
                (Raise "'accessTokenExpirationTimestampMs'",
                 mk (Some token) (token_expiration self), true)
            | Some ms =>
                (Ok token, mk (Some token) (PyFloat.int_truediv ms 1000), true)
            end
        end
    end.
End SpotifyAnonymousAuth.

(* ================================================================== *)
(** ** Playlist files of [PlexPlaylistManager] *)

Definition LF : ascii := ascii_of_nat 10.
Definition CR : ascii := ascii_of_nat 13.

(** [c in s] for one character *)
Fixpoint mentions (c : ascii) (s : string) : bool :=
  match s with
  | EmptyString => false
  | String a s' => Ascii.eqb a c || mentions c s'
  end.

(** What reading in text mode does to the newlines: [\r\n] and [\r] become
    [\n]. *)
Fixpoint universal_newlines (s : string) : string :=
  match s with
  | EmptyString => EmptyString
  | String c s' =>
      if Ascii.eqb c CR then
        String LF (match s' with
                   | String d s'' =>
                       if Ascii.eqb d LF then universal_newlines s''
                       else universal_newlines s'
                   | EmptyString => EmptyString
                   end)
      else String c (universal_newlines s')
  end.

(** [file.readlines()] on the translated text: the lines with their [\n]. *)
Fixpoint readlines (s : string) : list string :=
  match s with
  | EmptyString => []
  | String c s' =>
      if Ascii.eqb c LF then String c EmptyString :: readlines s'
      else match readlines s' with
           | [] => [String c EmptyString]
           | line :: lines => String c line :: lines
           end
  end.

(** What [PlexPlaylistManager.export_playlist] writes: the header and one
    line per part of every item, [parts] being the [part.file] of the
    [iterParts()] of each item of [playlist.items()]. *)
Definition export_playlist (parts : list (list string)) : string :=
  "#EXTM3U" ++ String LF ""
  ++ String.concat "" (map (fun file => file ++ String LF "") (List.concat parts)).

(** The tracks [import_m3u8_playlist] and [get_local_tracks] read from the
    text of a file written where [os.linesep] is [\n]. *)
Definition read_playlist (text : string) : list string :=
  get_local_tracks (readlines (universal_newlines text)).

(** [s.endswith(suffix)] *)
Fixpoint endswith (s suffix : string) : bool :=
  if String.eqb s suffix then true
  else match s with
       | EmptyString => false
       | String _ s' => endswith s' suffix
       end.

(** [s.rsplit(sep, 1)] for a non-empty [sep]: [Some (l, r)] stands for
    [[l, r]], cut at the rightmost occurrence, [None] for [[s]]. *)
Fixpoint rsplit_once (sep s : string) : option (string * string) :=
  match s with
  | EmptyString => None
  | String c s' =>
      match rsplit_once sep s' with
      | Some (l, r) => Some (String c l, r)
      | None =>
          match PyStr.strip_prefix sep s with
          | Some r => Some (EmptyString, r)
          | None => None
          end
      end
  end.

(** The path [PlexPlaylistManager.upload_playlist] renames the file to, and
    uploads. *)
Definition upload_path (path : string) : string :=
  if endswith path ".m3u8" then
    match rsplit_once "." path with
    | Some (l, _) => l
    | None => path
    end ++ ".m3u"
  else path.

(** [next((p for p in self.playlists if p.title == text), None)], the
    playlist [delete_selected_playlist] and [export_selected_playlists] take
    for a selected item. *)
Definition playlist_by_title (playlists : list Plex.Playlist) (text : string)
  : option Plex.Playlist :=
  find (fun p => String.eqb (Plex.pl_title p) text) playlists.

(** The playlists [delete_selected_playlist] calls [delete()] on, and
    [export_selected_playlists] exports, for the texts of the selected
    items; [is_true] is the truth value of a playlist object, which
    [if playlist:] tests. *)
Definition selected_playlists (is_true : Plex.Playlist -> bool)
    (playlists : list Plex.Playlist) (selected : list string)
  : list Plex.Playlist :=
  flat_map (fun text => match playlist_by_title playlists text with
                        | Some p => if is_true p then [p] else []
                        | None => []
                        end) selected.

(* ================================================================== *)
(** ** [PlexPlaylistManager.import_m3u8_playlist] *)

(** [int(completed / total * 100)], the value of the import progress bar. *)
Definition percent_progress (completed total : Z) : Z :=
  PyFloat.py_int
    (PyFloat.fmul (PyFloat.int_truediv completed total) (PyFloat.of_int 100)).

(** The loop over [enumerate(tracks)]: [search] is
    [library_section.search(track, limit=1)], whose first result is kept. *)
Fixpoint import_loop (search : string -> result (list Plex.Track))
    (total_tracks : Z) (i : Z) (tracks : list string)
    (plex_tracks : list Plex.Track) (values : list Z)
  : result (list Plex.Track) * list Z :=
  match tracks with
  | [] => (Ok plex_tracks, values)
  | track :: rest =>
      match search track with
      | Raise e => (Raise e, values)
      | Ok search_result =>
          import_loop search total_tracks (i + 1) rest
            match search_result with
            | first :: _ => (plex_tracks ++ [first])%list
            | [] => plex_tracks
            end
            (values ++ [percent_progress (i + 1) total_tracks])%list
      end
  end.

(** [f"Imported Playlist {len(self.plex_server.playlists()) + 1}"] *)
Definition imported_playlist_name (srv : Plex.Server) : string :=
  "Imported Playlist "
  ++ NilEmpty.string_of_uint (Nat.to_uint (List.length (Plex.playlists srv) + 1)).

Definition importing_error (e : string) : string :=
  "Error importing playlist: " ++ e.

(** [import_m3u8_playlist], from the text of the file (or the exception of
    reading it) on: the warning shown, if any, the server after the call and
    the values the progress bar was set to. *)
Definition import_m3u8_playlist (text : result string)
    (section : result (string -> result (list Plex.Track)))
    (createPlaylist_error : option string) (srv : Plex.Server)
  : option string * Plex.Server * list Z :=
  match text with
  | Raise e => (Some (importing_error e), srv, [])
  | Ok text =>
      let tracks := read_playlist text in
      let playlist_name := imported_playlist_name srv in
      match section with
      | Raise e => (Some (importing_error e), srv, [])
      | Ok search =>
          match import_loop search (len tracks) 0 tracks [] [] with
          | (Raise e, values) => (Some (importing_error e), srv, values)
          | (Ok [], values) => (Some (importing_error NO_MATCHES), srv, values)
          | (Ok (first :: others), values) =>
              match createPlaylist_error with
              | Some e => (Some (importing_error e), srv, values)
              | None =>
                  (None,
                   Plex.mkServer
                     (Plex.playlists srv
                        ++ [Plex.mkPlaylist playlist_name (first :: others) None])%list,
                   values)
              end
          end
      end
  end.

(* ================================================================== *)
(** ** Vocabulary for the values of the Tidal fetch and for file paths *)

(** The strings [get_tidal_playlist_info] has appended to [tracks] once the
    first [j] futures of [completion] have completed. *)
Definition tidal_collected (items : list Tidal.Item) (completion : list nat)
    (j : nat) : list string :=
  flat_map (fun k => match nth_error items k with
                     | Some item => well_formed_tidal item
                     | None => []
                     end) (firstn j completion).

(** [s.isascii()] *)
Fixpoint isascii (s : string) : bool :=
  match s with
  | EmptyString => true
  | String c s' => (nat_of_ascii c <? 128)%nat && isascii s'
  end.

(* ================================================================== *)
(** * Properties *)

(** ** Strings *)

Section StringFacts.
Import PyStr.

Lemma strip_prefix_app (p r : string) : strip_prefix p (p ++ r) = Some r.
Proof.
  induction p as [|a p IH]; simpl; [reflexivity|].
  now rewrite Ascii.eqb_refl.
Qed.

Lemma strip_prefix_inv (p s r : string) :
  strip_prefix p s = Some r -> s = p ++ r.
Proof.
  revert s; induction p as [|a p IH]; intros s H; simpl in *.
  - now inversion H.
  - destruct s as [|b s]; [discriminate|].
    destruct (Ascii.eqb_spec a b) as [->|]; [|discriminate].
    now rewrite (IH _ H).
Qed.

Lemma split_once_cut (sep s l r : string) :
  split_once sep s = Some (l, r) -> s = l ++ sep ++ r.
Proof.
  revert l r; induction s as [|c s IH]; intros l r H; simpl in H.
  - destruct (strip_prefix sep "") eqn:E; [|discriminate].
    inversion H; subst. exact (strip_prefix_inv _ _ _ E).
  - destruct (strip_prefix sep (String c s)) eqn:E.
    + inversion H; subst. exact (strip_prefix_inv _ _ _ E).
    + destruct (split_once sep s) as [[l1 r1]|]; [|discriminate].
      inversion H; subst. simpl. now rewrite <- (IH l1 r eq_refl).
Qed.

(** The cut is at the leftmost occurrence. *)
Lemma split_once_leftmost (sep s l r : string) :
  split_once sep s = Some (l, r) ->
  forall l' r', s = l' ++ sep ++ r' -> (String.length l <= String.length l')%nat.
Proof.
  revert l r; induction s as [|c s IH]; intros l r H l' r' Hs; simpl in H.
  - destruct (strip_prefix sep "") eqn:E; [|discriminate].
    inversion H; subst; simpl; lia.
  - destruct (strip_prefix sep (String c s)) eqn:E.
    + inversion H; subst; simpl; lia.
    + destruct (split_once sep s) as [[l1 r1]|] eqn:E1; [|discriminate].
      inversion H; subst l r.
      destruct l' as [|c' l'].
      * simpl in Hs. rewrite Hs, strip_prefix_app in E. discriminate.
      * simpl in Hs. inversion Hs; subst c'.
        simpl. apply le_n_S. eapply IH; eauto.
Qed.

Lemma split_once_none (sep s : string) :
  split_once sep s = None -> forall l r, s <> l ++ sep ++ r.
Proof.
  induction s as [|c s IH]; intros H l r Hs; simpl in H.
  - destruct (strip_prefix sep "") eqn:E; [discriminate|].
    destruct l; simpl in Hs; [|discriminate].
    rewrite Hs, strip_prefix_app in E. discriminate.
  - destruct (strip_prefix sep (String c s)) eqn:E; [discriminate|].
    destruct (split_once sep s) as [[l1 r1]|] eqn:E1; [discriminate|].
    destruct l as [|c' l]; simpl in Hs.
    + rewrite Hs, strip_prefix_app in E. discriminate.
    + inversion Hs; subst. now apply (IH eq_refl l r).
Qed.




Lemma lstrip_head (s : string) :
  lstrip s = "" \/ exists c t, lstrip s = String c t /\ is_space c = false.
Proof.
  induction s as [|c s IH]; simpl; [now left|].
  destruct (is_space c) eqn:E; [exact IH|].
  right; now exists c, s.
Qed.

Lemma rstrip_head (c : ascii) (t : string) :
  is_space c = false -> exists t', rstrip (String c t) = String c t'.
Proof.
  intros E; simpl. rewrite E.
  destruct (rstrip t); eauto.
Qed.

Lemma rstrip_idem (s : string) : rstrip (rstrip s) = rstrip s.
Proof.
  induction s as [|c s IH]; simpl; [reflexivity|].
  destruct (rstrip s) as [|d r] eqn:E.
  - destruct (is_space c) eqn:Ec; simpl; [reflexivity|].
    now rewrite Ec.
  - change (rstrip (String c (String d r)) = String c (String d r)).
    change (rstrip (String c (String d r)))
      with (match rstrip (String d r) with
            | "" => if is_space c then "" else String c ""
            | String a b => String c (String a b)
            end).
    now rewrite IH.
Qed.

Lemma strip_idem (s : string) : strip (strip s) = strip s.
Proof.
  unfold strip.
  destruct (lstrip_head s) as [->|(c & t & -> & Hc)]; [reflexivity|].
  destruct (rstrip_head c t Hc) as [t' Ht].
  rewrite Ht at 1. simpl lstrip. rewrite Hc, <- Ht.
  apply rstrip_idem.
Qed.

Lemma get_local_tracks_stripped (content : list string) (line : string) :
  In line (get_local_tracks content) -> strip line = line.
Proof.
  unfold get_local_tracks. rewrite in_map_iff.
  intros (raw & <- & _). apply strip_idem.
Qed.

End StringFacts.

(** ** C4: the descriptor is cut at the first [" - "] *)



(** ** C3: a provider record goes through the descriptor string *)

Lemma split_once_cons (sep : string) (c : ascii) (s : string) :
  PyStr.split_once sep (String c s)
  = match PyStr.strip_prefix sep (String c s) with
    | Some r => Some ("", r)
    | None =>
        match PyStr.split_once sep s with
        | Some (l, r) => Some (String c l, r)
        | None => None
        end
    end.
Proof. reflexivity. Qed.

Lemma string_app_assoc (s1 s2 s3 : string) : (s1 ++ s2) ++ s3 = s1 ++ s2 ++ s3.
Proof.
  induction s1 as [|c s1 IH]; simpl; [reflexivity|now rewrite IH].
Qed.

Lemma string_length_app (s1 s2 : string) :
  String.length (s1 ++ s2) = (String.length s1 + String.length s2)%nat.
Proof.
  induction s1 as [|c s1 IH]; simpl; [reflexivity|now rewrite IH].
Qed.

(** Whether [p] starts [s] is decided by the first [length p] characters. *)
Lemma strip_prefix_app_r (p s x : string) :
  (String.length p <= String.length s)%nat ->
  PyStr.strip_prefix p (s ++ x)
  = option_map (fun r => r ++ x) (PyStr.strip_prefix p s).
Proof.
  revert s; induction p as [|a p IH]; intros s L; [reflexivity|].
  destruct s as [|b s]; simpl in L; [lia|].
  simpl. destruct (Ascii.eqb a b); [|reflexivity].
  apply IH; lia.
Qed.

Lemma split_once_after_clean_title (t a : string) :
  PyStr.split_once SEP (t ++ " -") = None ->
  PyStr.split_once SEP (t ++ SEP ++ a) = Some (t, a).
Proof.
  induction t as [|c t IH]; intros H.
  - reflexivity.
  - change (PyStr.split_once SEP (String c (t ++ " -")) = None) in H.
    change (PyStr.split_once SEP (String c (t ++ SEP ++ a)) = Some (String c t, a)).
    rewrite split_once_cons in H |- *.
    destruct (PyStr.strip_prefix SEP (String c (t ++ " -"))) eqn:E; [discriminate|].
    destruct (PyStr.split_once SEP (t ++ " -")) as [[l r]|] eqn:E1; [discriminate|].
    rewrite (IH eq_refl).
    assert (E' : PyStr.strip_prefix SEP (String c (t ++ SEP ++ a)) = None).
    { change (String c (t ++ SEP ++ a)) with (String c t ++ (" -" ++ " " ++ a)).
      rewrite <- string_app_assoc.
      rewrite strip_prefix_app_r.
      - change (String c t ++ " -") with (String c (t ++ " -")). now rewrite E.
      - rewrite string_length_app. simpl. lia. }
    now rewrite E'.
Qed.

(** C3, as the code has it.  A provider record reaches the match engine as
    the string ["{title} - {artist}"], cut again by [parse_track_info]: the
    pair is the title and the primary artist's name, each stripped of
    surrounding whitespace, whenever no [" - "] occurs in the title
    followed by [" -"]; this holds for the records of the three
    providers. *)
Theorem provider_record_canonical_pair (t a : string) :
  (forall l r, t ++ " -" <> l ++ SEP ++ r) ->
  parse_track_info (t ++ " - " ++ a) = (PyStr.strip t, PyStr.strip a)
  /\ canonical_of_tidal (Tidal.mkItem (Some t) (Some a))
     = Some (PyStr.strip t, PyStr.strip a)
  /\ (forall others,
        canonical_of_spotify (Spotify.mkTrack t (a :: others))
        = Ok (PyStr.strip t, PyStr.strip a))
  /\ canonical_of_deezer (Deezer.mkTrack t a) = (PyStr.strip t, PyStr.strip a).
Proof.
  intros Hclean.
  assert (E : PyStr.split_once SEP (t ++ " -") = None).
  { destruct (PyStr.split_once SEP (t ++ " -")) as [[l r]|] eqn:E; [|reflexivity].
    exfalso. exact (Hclean l r (split_once_cut _ _ _ _ E)). }
  assert (P : parse_track_info (t ++ " - " ++ a) = (PyStr.strip t, PyStr.strip a)).
  { unfold parse_track_info.
    change (t ++ " - " ++ a) with (t ++ SEP ++ a).
    now rewrite (split_once_after_clean_title t a E). }
  repeat split.
  - exact P.
  - change (Some (parse_track_info (t ++ " - " ++ a))
            = Some (PyStr.strip t, PyStr.strip a)).
    now rewrite P.
  - intros others.
    change (Ok (parse_track_info (t ++ " - " ++ a))
            = Ok (PyStr.strip t, PyStr.strip a)).
    now rewrite P.
  - exact P.
Qed.

Lemma provider_record_canonical_pair_witness :
  canonical_of_tidal (Tidal.mkItem (Some "Hey Jude") (Some "The Beatles"))
  = Some ("Hey Jude", "The Beatles").
Proof.
  refine (proj1 (proj2 (provider_record_canonical_pair "Hey Jude" "The Beatles" _))).
  apply split_once_none. reflexivity.
Defined.

(** C3 as the specification states it fails: a title that contains
    [" - "] does not come out unchanged, it is cut at its first [" - "] and
    the rest goes to the artist. *)
Lemma provider_title_with_separator_is_cut :
  canonical_of_tidal (Tidal.mkItem (Some "Song - Remix") (Some "X"))
    = Some ("Song", "Remix - X")
  /\ canonical_of_spotify (Spotify.mkTrack "Song - Remix" ["X"])
    = Ok ("Song", "Remix - X")
  /\ canonical_of_deezer (Deezer.mkTrack "Song - Remix" "X")
    = ("Song", "Remix - X")
  /\ canonical_of_deezer (Deezer.mkTrack "Song - Remix" "X")
    <> ("Song - Remix", "X").
Proof.
  repeat split; try reflexivity. discriminate.
Qed.

(** ** The match engine *)

Lemma fgt_true (x y : Q) : PyFloat.fgt x y = true <-> (y < x)%Q.
Proof.
  unfold PyFloat.fgt. rewrite negb_true_iff.
  split; intros H.
  - apply Qnot_le_lt. intros L. apply Qle_bool_iff in L. congruence.
  - destruct (Qle_bool x y) eqn:E; [|reflexivity].
    apply Qle_bool_iff in E. exfalso. exact (Qlt_not_le _ _ H E).
Qed.

Lemma fgt_false (x y : Q) : PyFloat.fgt x y = false <-> (x <= y)%Q.
Proof.
  unfold PyFloat.fgt. rewrite negb_false_iff. apply Qle_bool_iff.
Qed.

Lemma fge_true (x y : Q) : PyFloat.fge x y = true <-> (y <= x)%Q.
Proof. unfold PyFloat.fge. apply Qle_bool_iff. Qed.

Section MatchFacts.

Variable token_set_ratio : string -> string -> Z.
Variables title artist : string.

Local Abbreviation score := (combined_score token_set_ratio title artist).
Local Abbreviation step := (best_step token_set_ratio title artist).

Lemma best_of_snoc (l : list Plex.Track) (x : Plex.Track) :
  best_of token_set_ratio title artist (l ++ [x])
  = step (best_of token_set_ratio title artist l) x.
Proof. unfold best_of. now rewrite fold_left_app. Qed.

Lemma best_step_inv (l : list Plex.Track) (st : option Plex.Track * Q)
    (x : Plex.Track) :
  best_inv score l st -> best_inv score (l ++ [x]) (step st x).
Proof.
  destruct st as [[c|] bs]; unfold best_inv, best_step; simpl.
  - intros (-> & Hpos & pre & post & -> & Hpre & Hpost).
    destruct (PyFloat.fgt (score x) (score c)) eqn:E; simpl.
    + apply fgt_true in E.
      repeat split; [lra|].
      exists (pre ++ c :: post)%list, []. repeat split.
      * intros y Hy. apply in_app_or in Hy as [Hy|[<-|Hy]].
        -- specialize (Hpre y Hy). lra.
        -- exact E.
        -- specialize (Hpost y Hy). lra.
      * intros y [].
    + apply fgt_false in E.
      repeat split; [exact Hpos|].
      exists pre, (post ++ [x])%list. repeat split.
      * now rewrite <- app_assoc.
      * exact Hpre.
      * intros y Hy. apply in_app_or in Hy as [Hy|[<-|[]]]; auto.
  - intros (-> & Hall).
    destruct (PyFloat.fgt (score x) 0) eqn:E; simpl.
    + apply fgt_true in E.
      repeat split; [exact E|].
      exists l, []. repeat split.
      * intros y Hy. specialize (Hall y Hy). lra.
      * intros y [].
    + apply fgt_false in E.
      split; [reflexivity|].
      intros y Hy. apply in_app_or in Hy as [Hy|[<-|[]]]; auto.
Qed.

(** The invariant of the loop of [find_best_match]. *)
Lemma best_of_inv (l : list Plex.Track) :
  best_inv score l (best_of token_set_ratio title artist l).
Proof.
  induction l as [|x l IH] using rev_ind.
  - unfold best_inv, best_of; simpl. split; [reflexivity|intros x []].
  - rewrite best_of_snoc. now apply best_step_inv.
Qed.

Lemma first_maximum_in {A} (f : A -> Q) (l : list A) (c : A) :
  first_maximum f l c -> In c l /\ forall x, In x l -> (f x <= f c)%Q.
Proof.
  intros (pre & post & -> & Hpre & Hpost). split.
  - apply in_or_app. right. now left.
  - intros x Hx. apply in_app_or in Hx as [Hx|[<-|Hx]].
    + specialize (Hpre x Hx). lra.
    + lra.
    + auto.
Qed.

End MatchFacts.

(** ** C5: the artist score *)

(** C5.  The artist score of a track with an artist is the similarity of the
    artist (in lower case) with the candidate's [originalTitle] when that is
    populated, else with the title of the candidate's [artist()] when there
    is one, and it is [0] when the candidate has neither.  For a track
    without artist the code still asks [fuzz.token_set_ratio], with the empty
    string, when the candidate has an [artist()]; the package answers [0] on
    an empty string, and with that the artist score is [0] whenever the
    track has no artist. *)
Theorem artist_score_cases
    (token_set_ratio : string -> string -> Z)
    (artist : string) (plex_track : Plex.Track) :
  (artist = "" ->
   artist_score token_set_ratio artist plex_track
   = match Plex.artist plex_track with
     | Some artist_title => token_set_ratio "" (PyStr.lower artist_title)
     | None => 0%Z
     end)
  /\ (artist = "" ->
      (forall s, token_set_ratio "" s = 0%Z) ->
      artist_score token_set_ratio artist plex_track = 0%Z)
  /\ (artist <> "" ->
      forall original, Plex.originalTitle plex_track = Some original ->
                       original <> "" ->
        artist_score token_set_ratio artist plex_track
        = token_set_ratio (PyStr.lower artist) (PyStr.lower original))
  /\ (artist <> "" ->
      truthy (Plex.originalTitle plex_track) = false ->
      forall artist_title, Plex.artist plex_track = Some artist_title ->
        artist_score token_set_ratio artist plex_track
        = token_set_ratio (PyStr.lower artist) (PyStr.lower artist_title))
  /\ (truthy (Plex.originalTitle plex_track) = false ->
      Plex.artist plex_track = None ->
      artist_score token_set_ratio artist plex_track = 0%Z).
Proof.
  unfold artist_score. split; [|split; [|split; [|split]]].
  - intros ->. reflexivity.
  - intros -> ratio_empty. simpl.
    destruct (Plex.artist plex_track); [apply ratio_empty|reflexivity].
  - intros Ha original Ho Hne. rewrite Ho. simpl.
    apply String.eqb_neq in Ha, Hne. now rewrite Ha, Hne.
  - intros Ha Ho name Hn. rewrite Ho, Hn, andb_false_r. reflexivity.
  - intros Ho Hn. rewrite Ho, Hn, andb_false_r. reflexivity.
Qed.

Lemma artist_score_cases_witness :
  artist_score word_ratio "" song_with_artist = 0%Z
  /\ artist_score word_ratio "X" (song_by_x 1) = 100%Z
  /\ artist_score word_ratio "X" song_with_artist = 100%Z
  /\ artist_score word_ratio "X" song_untagged = 0%Z.
Proof.
  split; [|split; [|split]].
  - refine (proj1 (proj2 (artist_score_cases word_ratio "" song_with_artist))
              eq_refl _).
    intros s. reflexivity.
  - refine (proj1 (proj2 (proj2 (artist_score_cases word_ratio "X" (song_by_x 1))))
              _ "X" eq_refl _); discriminate.
  - refine (proj1 (proj2 (proj2 (proj2
              (artist_score_cases word_ratio "X" song_with_artist))))
              _ eq_refl "X" eq_refl); discriminate.
  - exact (proj2 (proj2 (proj2 (proj2
             (artist_score_cases word_ratio "X" song_untagged))))
             eq_refl eq_refl).
Defined.

(** ** C7: the candidate the loop selects *)

(** C7.  The candidate the loop of [find_best_match] selects has the maximum
    combined score of the candidates, wherever it stands in the order the
    search returned, and it is the first of those that reach this maximum:
    every candidate before it scores strictly less, none after it scores
    more.  A candidate is selected as soon as one scores above [0], the
    match [find_best_match] returns is the selected one, and the score
    selected does not depend on the order of the candidates. *)
Theorem selected_candidate_is_first_maximum
    (token_set_ratio : string -> string -> Z) (title artist : string)
    (all_tracks : list Plex.Track) :
  (forall c best_score,
      best_of token_set_ratio title artist all_tracks = (Some c, best_score) ->
      best_score = combined_score token_set_ratio title artist c
      /\ first_maximum (combined_score token_set_ratio title artist) all_tracks c)
  /\ (forall x, In x all_tracks ->
                (0 < combined_score token_set_ratio title artist x)%Q ->
      exists c, fst (best_of token_set_ratio title artist all_tracks) = Some c)
  /\ (forall searchTracks track c,
        parse_track_info track = (title, artist) ->
        searchTracks title = Ok all_tracks ->
        find_best_match token_set_ratio searchTracks track = Ok (Some c) ->
        first_maximum (combined_score token_set_ratio title artist) all_tracks c)
  /\ (forall reordered c c' best_score best_score',
        Permutation all_tracks reordered ->
        best_of token_set_ratio title artist all_tracks = (Some c, best_score) ->
        best_of token_set_ratio title artist reordered = (Some c', best_score') ->
        (best_score == best_score')%Q).
Proof.
  pose proof (best_of_inv token_set_ratio title artist all_tracks) as Inv.
  split; [|split; [|split]]; cycle 3.
  { intros l' c c' bs bs' Hperm E E'.
    pose proof (best_of_inv token_set_ratio title artist l') as Inv'.
    rewrite E in Inv. rewrite E' in Inv'.
    unfold best_inv in Inv, Inv'; simpl in Inv, Inv'.
    destruct Inv as (-> & _ & Hm). destruct Inv' as (-> & _ & Hm').
    apply first_maximum_in in Hm as [Hin Hle].
    apply first_maximum_in in Hm' as [Hin' Hle'].
    apply Qle_antisym.
    - apply Hle'. eapply Permutation_in; eauto.
    - apply Hle. eapply Permutation_in; [symmetry|]; eauto. }
  - intros c bs E. rewrite E in Inv. unfold best_inv in Inv; simpl in Inv.
    destruct Inv as (-> & _ & Hmax). now split.
  - intros x Hx Hpos.
    destruct (best_of token_set_ratio title artist all_tracks) as [[c|] bs];
      unfold best_inv in Inv; simpl in *.
    + now exists c.
    + destruct Inv as [_ Hall]. specialize (Hall x Hx). lra.
  - intros search track c Hp Hs. unfold find_best_match. rewrite Hp, Hs.
    destruct (best_of token_set_ratio title artist all_tracks) as [bm bs].
    destruct (PyFloat.fge bs 70); [|discriminate].
    destruct (matched_message bm); [|discriminate].
    intros H; inversion H; subst bm.
    unfold best_inv in Inv; simpl in Inv. tauto.
Qed.

Lemma selected_candidate_is_first_maximum_witness :
  first_maximum (combined_score word_ratio "Song" "X")
                [song_untagged; song_by_x 1; song_by_x 2] (song_by_x 1).
Proof.
  refine (proj2 (proj1 (selected_candidate_is_first_maximum word_ratio "Song" "X"
                          [song_untagged; song_by_x 1; song_by_x 2])
                       (song_by_x 1) 100%Q _)).
  vm_compute. reflexivity.
Defined.

(** ** C10: an accepted score comes with a candidate *)




(** ** C6: the acceptance threshold *)

(** What holds of the threshold whenever [find_best_match] returns: a match
    is a candidate of maximal score, at least [70]; no match is returned
    when some candidate reaches [70]; without candidates, or with all of
    them below [70], the result is no match. *)
Lemma find_best_match_threshold
    (token_set_ratio : string -> string -> Z) (title artist : string)
    (all_tracks : list Plex.Track)
    (searchTracks : string -> result (list Plex.Track)) (track : string) :
  parse_track_info track = (title, artist) ->
  searchTracks title = Ok all_tracks ->
  (forall c, find_best_match token_set_ratio searchTracks track = Ok (Some c) ->
             In c all_tracks
             /\ (70 <= combined_score token_set_ratio title artist c)%Q
             /\ forall x, In x all_tracks ->
                  (combined_score token_set_ratio title artist x
                   <= combined_score token_set_ratio title artist c)%Q)
  /\ (forall x, In x all_tracks ->
                (70 <= combined_score token_set_ratio title artist x)%Q ->
                find_best_match token_set_ratio searchTracks track <> Ok None)
  /\ ((forall x, In x all_tracks ->
                 (combined_score token_set_ratio title artist x < 70)%Q) ->
      find_best_match token_set_ratio searchTracks track = Ok None).
Proof.
  intros Hp Hs.
  pose proof (best_of_inv token_set_ratio title artist all_tracks) as Inv.
  unfold find_best_match. rewrite Hp, Hs.
  destruct (best_of token_set_ratio title artist all_tracks) as [bm bs] eqn:E.
  unfold best_inv in Inv; simpl in Inv.
  destruct (PyFloat.fge bs 70) eqn:G.
  - apply fge_true in G.
    destruct bm as [c|].
    + destruct Inv as (-> & _ & Hmax).
      apply first_maximum_in in Hmax as [Hin Hle].
      split; [|split].
      * intros c' H. destruct (matched_message (Some c)); [|discriminate].
        inversion H; subst c'. auto.
      * intros x _ _. destruct (matched_message (Some c)); discriminate.
      * intros Hall. specialize (Hall c Hin). lra.
    + destruct Inv as [-> _]. exfalso. revert G. apply Qlt_not_le. reflexivity.
  - assert (L : (bs < 70)%Q).
    { apply Qnot_le_lt. intros L. apply fge_true in L. congruence. }
    split; [discriminate|split; [|reflexivity]].
    intros x Hx Hge. exfalso.
    destruct bm as [c|].
    + destruct Inv as (-> & _ & Hmax).
      apply first_maximum_in in Hmax as [_ Hle]. specialize (Hle x Hx). lra.
    + destruct Inv as [-> Hall]. specialize (Hall x Hx). lra.
Qed.

(** C6 at a candidate that matches the title and has neither
    [originalTitle] nor an artist: its combined score is [70.0], the test
    [best_score >= 70] succeeds, and evaluating the message of the accepted
    branch raises, so no match is returned.  With no candidate at all the
    result is no match. *)
Theorem perfect_title_without_artist_raises :
  combined_score word_ratio "Song" "" song_untagged = 70%Q
  /\ best_of word_ratio "Song" "" [song_untagged] = (Some song_untagged, 70%Q)
  /\ PyFloat.fge 70 70 = true
  /\ find_best_match word_ratio (fun _ => Ok [song_untagged]) "Song"
     = Raise NONE_HAS_NO_TITLE
  /\ find_best_match word_ratio (fun _ => Ok []) "Song" = Ok None.
Proof.
  repeat split; vm_compute; reflexivity.
Qed.


(** ** Floats: the model on known values *)

(** The literals and products of the program as CPython computes them:
    [0.7] and [0.3] are the nearest doubles, [100 * 0.7] is exactly [70.0],
    [3 * 0.7] and [7 * 0.3] differ in the last place, and
    [29 / 50 * 50] is just below [29]. *)
Lemma binary64_samples :
  PyFloat.c07 = (3152519739159347 # 4503599627370496)%Q
  /\ PyFloat.c03 = (5404319552844595 # 18014398509481984)%Q
  /\ PyFloat.fmul (PyFloat.of_int 100) PyFloat.c07 = 70%Q
  /\ PyFloat.fmul (PyFloat.of_int 3) PyFloat.c07
     = (1182194902184755 # 562949953421312)%Q
  /\ PyFloat.fmul (PyFloat.of_int 7) PyFloat.c03
     = (4728779608739021 # 2251799813685248)%Q
  /\ half_progress 29 50 = 28%Z.
Proof.
  repeat split; vm_compute; reflexivity.
Qed.

(** ** Floats: rounding is monotone *)

Section FloatFacts.
Import PyFloat.
Local Open Scope Q_scope.

Lemma rhe_inject (n : Z) : rhe (inject_Z n) = n.
Proof.
  unfold rhe. rewrite Qfloor_Z.
  replace (Qcompare (inject_Z n - inject_Z n) (1 # 2)) with Lt; [reflexivity|].
  symmetry. rewrite <- Qlt_alt. lra.
Qed.

Lemma rhe_bounds (x : Q) : (Qfloor x <= rhe x <= Qfloor x + 1)%Z.
Proof.
  unfold rhe.
  destruct (Qcompare (x - inject_Z (Qfloor x)) (1 # 2));
    try destruct (Z.even (Qfloor x)); lia.
Qed.

Lemma rhe_mono (x y : Q) : x <= y -> (rhe x <= rhe y)%Z.
Proof.
  intros Hxy.
  pose proof (Qfloor_resp_le _ _ Hxy) as Hf.
  destruct (Z.eq_dec (Qfloor x) (Qfloor y)) as [E|NE].
  - unfold rhe. rewrite <- E.
    destruct (Qcompare_spec (x - inject_Z (Qfloor x)) (1 # 2)) as [H1|H1|H1];
      destruct (Qcompare_spec (y - inject_Z (Qfloor x)) (1 # 2)) as [H2|H2|H2];
      try (exfalso; lra); try destruct (Z.even (Qfloor x)); lia.
  - pose proof (rhe_bounds x). pose proof (rhe_bounds y). lia.
Qed.

Lemma two_power_pos (z : Z) : 0 < 2 ^ z.
Proof. apply Qpower_0_lt. reflexivity. Qed.

Lemma two_power_succ (z : Z) : 2 ^ (z + 1) == 2 * 2 ^ z.
Proof. rewrite Qpower_plus by discriminate. change (2 ^ 1) with 2. ring. Qed.

Lemma two_power_inject (z : Z) : (0 <= z)%Z -> inject_Z (2 ^ z) == 2 ^ z.
Proof. intros H. now rewrite Zpower_Qpower. Qed.

Lemma two_power_le (a b : Z) : (a <= b)%Z -> 2 ^ a <= 2 ^ b.
Proof. intros H. apply Qpower_le_compat_l; [exact H|discriminate]. Qed.

(** The quotient of two rationals known up to a factor two. *)
Lemma quotient_binade (N D A B : Q) :
  0 < B -> A <= N -> N < 2 * A -> B <= D -> D < 2 * B ->
  (A / B) / 2 < N / D /\ N / D < 2 * (A / B).
Proof.
  intros HB H1 H2 H3 H4.
  assert (HD : 0 < D) by lra.
  assert (HA : 0 < A) by lra.
  assert (HR : B * (A / B) == A).
  { apply Qmult_div_r. intros E. rewrite E in HB. discriminate. }
  assert (HRpos : 0 < A / B).
  { apply Qlt_shift_div_l; [exact HB|]. now rewrite Qmult_0_l. }
  generalize dependent (A / B). intros R HR HRpos.
  assert (P1 : R * D < R * (2 * B)) by (apply Qmult_lt_l; assumption).
  assert (P2 : R * B <= R * D) by (apply Qmult_le_l; assumption).
  split.
  - apply Qlt_shift_div_l; [exact HD|].
    setoid_replace (R / 2 * D) with ((1 # 2) * (R * D)) by field.
    setoid_replace (R * (2 * B)) with (2 * (B * R)) in P1 by ring.
    rewrite HR in P1. lra.
  - apply Qlt_shift_div_r; [exact HD|].
    setoid_replace (2 * R * D) with (2 * (R * D)) by ring.
    setoid_replace (R * B) with (B * R) in P2 by ring.
    rewrite HR in P2. lra.
Qed.

Lemma ilog2_spec (x : Q) :
  0 < x -> 2 ^ ilog2 x <= x /\ x < 2 ^ (ilog2 x + 1).
Proof.
  intros Hx.
  destruct x as [n d].
  assert (Hn : (0 < n)%Z).
  { unfold Qlt in Hx; simpl in Hx. lia. }
  pose proof (Z.log2_spec n Hn) as [La Ua].
  pose proof (Z.log2_spec (Zpos d) (Pos2Z.is_pos d)) as [Lb Ub].
  pose proof (Z.log2_nonneg n) as Ha.
  pose proof (Z.log2_nonneg (Zpos d)) as Hb.
  set (a := Z.log2 n) in *. set (b := Z.log2 (Zpos d)) in *.
  assert (Q1 : 2 ^ a <= inject_Z n).
  { rewrite <- two_power_inject by exact Ha. now rewrite <- Zle_Qle. }
  assert (Q2 : inject_Z n < 2 * 2 ^ a).
  { rewrite <- two_power_succ, <- two_power_inject by lia. now rewrite <- Zlt_Qlt. }
  assert (Q3 : 2 ^ b <= inject_Z (Zpos d)).
  { rewrite <- two_power_inject by exact Hb. now rewrite <- Zle_Qle. }
  assert (Q4 : inject_Z (Zpos d) < 2 * 2 ^ b).
  { rewrite <- two_power_succ, <- two_power_inject by lia. now rewrite <- Zlt_Qlt. }
  destruct (quotient_binade _ _ _ _ (two_power_pos b) Q1 Q2 Q3 Q4) as [L U].
  rewrite <- Qmake_Qdiv in L, U.
  assert (P : 2 ^ (a - b) == 2 ^ a / 2 ^ b).
  { apply Qpower_minus. discriminate. }
  rewrite <- P in L, U.
  unfold ilog2. cbn [Qnum Qden]. fold a b.
  destruct (Qle_bool (2 ^ (a - b)) (n # d)) eqn:E.
  - apply Qle_bool_iff in E. split; [exact E|].
    rewrite two_power_succ. exact U.
  - assert (E' : n # d < 2 ^ (a - b)).
    { apply Qnot_le_lt. intros C. apply Qle_bool_iff in C. congruence. }
    replace (a - b - 1 + 1)%Z with (a - b)%Z by lia.
    split; [|exact E'].
    assert (S : 2 ^ (a - b) == 2 * 2 ^ (a - b - 1)).
    { rewrite <- two_power_succ. now replace (a - b - 1 + 1)%Z with (a - b)%Z by lia. }
    rewrite S in L.
    setoid_replace (2 * 2 ^ (a - b - 1) / 2) with (2 ^ (a - b - 1)) in L by field.
    apply Qlt_le_weak. exact L.
Qed.

Lemma ilog2_mono (x y : Q) : 0 < x -> x <= y -> (ilog2 x <= ilog2 y)%Z.
Proof.
  intros Hx Hxy.
  destruct (ilog2_spec x Hx) as [Lx Ux].
  destruct (ilog2_spec y) as [Ly Uy]; [lra|].
  destruct (Z_le_gt_dec (ilog2 x) (ilog2 y)) as [|G]; [assumption|exfalso].
  pose proof (two_power_le (ilog2 y + 1) (ilog2 x)) as P.
  specialize (P ltac:(lia)). lra.
Qed.

(** The significand of a positive rational lies between [2^52] and [2^53]. *)
Lemma significand_range (x : Q) :
  0 < x ->
  (2 ^ 52 <= rhe (x * 2 ^ (- (ilog2 x - 52))) <= 2 ^ 53)%Z.
Proof.
  intros Hx. destruct (ilog2_spec x Hx) as [L U].
  set (e := ilog2 x) in *.
  pose proof (two_power_pos (- (e - 52))) as Hp.
  assert (A : 2 ^ e * 2 ^ (- (e - 52)) == inject_Z (2 ^ 52)).
  { rewrite <- Qpower_plus by discriminate.
    replace (e + - (e - 52))%Z with 52%Z by lia. reflexivity. }
  assert (B : 2 ^ (e + 1) * 2 ^ (- (e - 52)) == inject_Z (2 ^ 53)).
  { rewrite <- Qpower_plus by discriminate.
    replace (e + 1 + - (e - 52))%Z with 53%Z by lia. reflexivity. }
  split.
  - rewrite <- (rhe_inject (2 ^ 52)). apply rhe_mono.
    rewrite <- A. apply Qmult_le_compat_r; lra.
  - rewrite <- (rhe_inject (2 ^ 53)). apply rhe_mono.
    rewrite <- B. apply Qmult_le_compat_r; lra.
Qed.

Lemma rne_pos_mono (x y : Q) : 0 < x -> x <= y -> rne_pos x <= rne_pos y.
Proof.
  intros Hx Hxy.
  assert (Hy : 0 < y) by lra.
  pose proof (ilog2_mono x y Hx Hxy) as He.
  pose proof (significand_range x Hx) as [Lx Ux].
  pose proof (significand_range y Hy) as [Ly Uy].
  unfold rne_pos.
  set (ex := ilog2 x) in *. set (ey := ilog2 y) in *.
  destruct (Z.eq_dec ex ey) as [E|NE].
  - rewrite <- E in *.
    apply Qmult_le_compat_r; [|apply Qlt_le_weak, two_power_pos].
    rewrite <- Zle_Qle. apply rhe_mono.
    apply Qmult_le_compat_r; [exact Hxy|apply Qlt_le_weak, two_power_pos].
  - set (mx := rhe (x * 2 ^ (- (ex - 52)))) in *.
    set (my := rhe (y * 2 ^ (- (ey - 52)))) in *.
    apply Qle_trans with (inject_Z (2 ^ 53) * 2 ^ (ex - 52)).
    { apply Qmult_le_compat_r; [|apply Qlt_le_weak, two_power_pos].
      now rewrite <- Zle_Qle. }
    apply Qle_trans with (inject_Z (2 ^ 52) * 2 ^ (ey - 52)).
    2:{ apply Qmult_le_compat_r; [|apply Qlt_le_weak, two_power_pos].
        now rewrite <- Zle_Qle. }
    rewrite !two_power_inject by lia.
    rewrite <- !Qpower_plus by discriminate.
    apply two_power_le. lia.
Qed.

Lemma rne_pos_pos (x : Q) : 0 < x -> 0 < rne_pos x.
Proof.
  intros Hx. pose proof (significand_range x Hx) as [L _].
  unfold rne_pos. apply Qmult_lt_0_compat; [|apply two_power_pos].
  change 0 with (inject_Z 0). rewrite <- Zlt_Qlt. lia.
Qed.

Lemma rne_nonneg (x : Q) : 0 <= x -> 0 <= rne x.
Proof.
  intros Hx. unfold rne. rewrite Qred_correct.
  destruct (Qcompare_spec x 0) as [E|L|G]; [lra|lra|].
  apply Qlt_le_weak, rne_pos_pos. exact G.
Qed.

(** Rounding to binary64 is monotone on the non-negative rationals. *)
Lemma rne_mono (x y : Q) : 0 <= x -> x <= y -> rne x <= rne y.
Proof.
  intros Hx Hxy. unfold rne. rewrite !Qred_correct.
  destruct (Qcompare_spec x 0) as [Ex|Lx|Gx]; [|lra|].
  - destruct (Qcompare_spec y 0) as [Ey|Ly|Gy]; [lra|lra|].
    apply Qlt_le_weak, rne_pos_pos. exact Gy.
  - destruct (Qcompare_spec y 0) as [Ey|Ly|Gy]; [lra|lra|].
    now apply rne_pos_mono.
Qed.

Lemma py_int_floor (x : Q) : 0 <= x -> py_int x = Qfloor x.
Proof.
  destruct x as [n d]. unfold Qle; simpl. intros H.
  unfold py_int; simpl. apply Z.quot_div_nonneg; lia.
Qed.

End FloatFacts.


(** ** The progress formula *)

Section ProgressFacts.
Import PyFloat.
Local Open Scope Q_scope.

Lemma of_int_50 : of_int 50 = 50.
Proof. vm_compute. reflexivity. Qed.

Lemma half_progress_unfold (a t : Z) :
  half_progress a t = py_int (rne (rne (inject_Z a / inject_Z t) * 50)).
Proof. unfold half_progress, fmul, int_truediv. now rewrite of_int_50. Qed.

Lemma inject_pos (t : Z) : (0 < t)%Z -> 0 < inject_Z t.
Proof. intros H. change 0 with (inject_Z 0). now rewrite <- Zlt_Qlt. Qed.

Lemma quotient_mono (a b t : Z) :
  (a <= b)%Z -> (0 < t)%Z -> inject_Z a / inject_Z t <= inject_Z b / inject_Z t.
Proof.
  intros Hab Ht. unfold Qdiv. apply Qmult_le_compat_r.
  - now rewrite <- Zle_Qle.
  - apply Qinv_le_0_compat, Qlt_le_weak, inject_pos, Ht.
Qed.

Lemma quotient_nonneg (a t : Z) :
  (0 <= a)%Z -> (0 < t)%Z -> 0 <= inject_Z a / inject_Z t.
Proof.
  intros Ha Ht. unfold Qdiv. apply Qmult_le_0_compat.
  - change 0 with (inject_Z 0). now rewrite <- Zle_Qle.
  - apply Qinv_le_0_compat, Qlt_le_weak, inject_pos, Ht.
Qed.

(** The float under [int(...)], as a function of the exact quotient. *)
Lemma scaled_mono (x y : Q) :
  0 <= x -> x <= y -> rne (rne x * 50) <= rne (rne y * 50).
Proof.
  intros Hx Hxy.
  pose proof (rne_nonneg x Hx) as Nx.
  pose proof (rne_mono x y Hx Hxy) as M.
  apply rne_mono; lra.
Qed.

Lemma scaled_nonneg (x : Q) : 0 <= x -> 0 <= rne (rne x * 50).
Proof.
  intros Hx. pose proof (rne_nonneg x Hx). apply rne_nonneg. lra.
Qed.

Lemma floor_scaled_mono (x y : Q) :
  0 <= x -> x <= y ->
  (py_int (rne (rne x * 50)) <= py_int (rne (rne y * 50)))%Z.
Proof.
  intros Hx Hxy.
  rewrite !py_int_floor by (apply scaled_nonneg; lra).
  apply Qfloor_resp_le, scaled_mono; assumption.
Qed.

Lemma half_progress_mono (a b t : Z) :
  (0 <= a <= b)%Z -> (0 < t)%Z -> (half_progress a t <= half_progress b t)%Z.
Proof.
  intros [Ha Hab] Ht. rewrite !half_progress_unfold.
  apply floor_scaled_mono.
  - now apply quotient_nonneg.
  - now apply quotient_mono.
Qed.

Lemma half_progress_nonneg (a t : Z) :
  (0 <= a)%Z -> (0 < t)%Z -> (0 <= half_progress a t)%Z.
Proof.
  intros Ha Ht. rewrite half_progress_unfold.
  rewrite py_int_floor by (apply scaled_nonneg; now apply quotient_nonneg).
  change 0%Z with (Qfloor 0). apply Qfloor_resp_le, scaled_nonneg.
  now apply quotient_nonneg.
Qed.

Lemma half_progress_le_50 (a t : Z) :
  (0 <= a <= t)%Z -> (0 < t)%Z -> (half_progress a t <= 50)%Z.
Proof.
  intros [Ha Hat] Ht. rewrite half_progress_unfold.
  assert (E : py_int (rne (rne 1 * 50)) = 50%Z) by (vm_compute; reflexivity).
  rewrite <- E. apply floor_scaled_mono.
  - now apply quotient_nonneg.
  - apply Qle_shift_div_r; [now apply inject_pos|].
    rewrite Qmult_1_l. now rewrite <- Zle_Qle.
Qed.

(** Before the last unit of work the value is below [50], for any total a
    list can have. *)
Lemma half_progress_lt_50 (a t : Z) :
  (0 <= a < t)%Z -> (t <= 2 ^ 53)%Z -> (half_progress a t <= 49)%Z.
Proof.
  intros [Ha Hat] Ht. rewrite half_progress_unfold.
  assert (E : py_int (rne (rne (1 - (1 # 9007199254740992)) * 50)) = 49%Z)
    by (vm_compute; reflexivity).
  rewrite <- E. apply floor_scaled_mono.
  - apply quotient_nonneg; lia.
  - apply Qle_shift_div_r; [apply inject_pos; lia|].
    assert (H1 : inject_Z a <= inject_Z t - 1).
    { change 1 with (inject_Z 1). unfold Qminus.
      rewrite <- inject_Z_opp, <- inject_Z_plus, <- Zle_Qle. lia. }
    assert (H2 : inject_Z t <= 9007199254740992).
    { change 9007199254740992 with (inject_Z (2 ^ 53)). now rewrite <- Zle_Qle. }
    lra.
Qed.

Lemma half_progress_full (t : Z) : (0 < t)%Z -> half_progress t t = 50%Z.
Proof.
  intros Ht. apply Z.le_antisymm.
  - apply half_progress_le_50; lia.
  - rewrite half_progress_unfold.
    assert (E : py_int (rne (rne 1 * 50)) = 50%Z) by (vm_compute; reflexivity).
    rewrite <- E. apply floor_scaled_mono; [lra|].
    apply Qle_shift_div_l; [now apply inject_pos|].
    rewrite Qmult_1_l. apply Qle_refl.
Qed.

End ProgressFacts.


(** ** The resolution loop *)

Lemma match_progress_S (total i : Z) (k : nat) :
  match_progress total i (S k)
  = (50 + half_progress (i + 1) total)%Z :: match_progress total (i + 1) k.
Proof.
  unfold match_progress. cbn [seq map]. f_equal.
  rewrite <- seq_shift, map_map. apply map_ext.
  intros j. do 2 f_equal. lia.
Qed.

Lemma match_progress_length (total i : Z) (k : nat) :
  List.length (match_progress total i k) = k.
Proof. unfold match_progress. now rewrite length_map, length_seq. Qed.

Section ResolveFacts.

Variable token_set_ratio : string -> string -> Z.
Variable searchTracks : string -> result (list Plex.Track).
Variable total : Z.

Local Abbreviation fbm := (find_best_match token_set_ratio searchTracks).
Local Abbreviation loop := (resolve_loop token_set_ratio searchTracks total).
Local Abbreviation resolved := (resolves token_set_ratio searchTracks).

(** Without an exception the loop goes through every track: the matches and
    the misses keep the order of the tracks, and one value is emitted per
    track. *)
Lemma resolve_loop_ok (tracks : list string) :
  Forall resolved tracks ->
  forall i plex_tracks not_found emitted,
    loop i tracks plex_tracks not_found emitted
    = (Ok ((plex_tracks ++ matches_of token_set_ratio searchTracks tracks)%list,
           (not_found ++ misses_of token_set_ratio searchTracks tracks)%list),
       (emitted ++ match_progress total i (List.length tracks))%list).
Proof.
  induction 1 as [|track rest [found Hf] _ IH]; intros i pt nf em.
  - simpl. now rewrite !app_nil_r.
  - cbn [resolve_loop matches_of misses_of flat_map filter List.length].
    rewrite match_progress_S, Hf.
    destruct found as [m|]; rewrite IH.
    + now rewrite <- !app_assoc.
    + now rewrite <- !app_assoc.
Qed.

(** The first exception ends the loop. *)
Lemma resolve_loop_raise (pre : list string) (track : string)
    (post : list string) (e : string) :
  Forall resolved pre ->
  fbm track = Raise e ->
  forall i plex_tracks not_found emitted,
    loop i (pre ++ track :: post) plex_tracks not_found emitted
    = (Raise e, (emitted ++ match_progress total i (List.length pre))%list).
Proof.
  intros Hpre He.
  induction Hpre as [|t rest [found Hf] _ IH]; intros i pt nf em.
  - simpl. rewrite He. now rewrite app_nil_r.
  - cbn [resolve_loop app List.length].
    rewrite match_progress_S, Hf.
    destruct found as [m|]; rewrite IH; now rewrite <- !app_assoc.
Qed.

(** Either every track resolves or there is a first one that raises. *)
Lemma first_raise (tracks : list string) :
  Forall resolved tracks
  \/ exists pre track post e,
       tracks = (pre ++ track :: post)%list
       /\ Forall resolved pre /\ fbm track = Raise e.
Proof.
  induction tracks as [|t rest IH].
  - left. constructor.
  - destruct (fbm t) as [found|e] eqn:E.
    + destruct IH as [IH|(pre & x & post & e & -> & Hpre & Hx)].
      * left. constructor; [now exists found|exact IH].
      * right. exists (t :: pre), x, post, e. repeat split; auto.
        constructor; [now exists found|exact Hpre].
    + right. exists [], t, rest, e. repeat split; auto.
Qed.

End ResolveFacts.

(** ** What [create_plex_playlist] does, case by case *)

Section CreateFacts.

Variable token_set_ratio : string -> string -> Z.
Variable env : Plex.Env.
Variable searchTracks : string -> result (list Plex.Track).
Hypothesis section_found : Plex.sectionByID env = Ok searchTracks.

Variables (tracks : list string) (playlist_name : string)
          (playlist_image_url : option string) (srv : Plex.Server).

Local Abbreviation create :=
  (create_plex_playlist token_set_ratio env tracks playlist_name
                        playlist_image_url srv).

Lemma create_raise (pre : list string) (track : string) (post : list string)
    (e : string) :
  tracks = (pre ++ track :: post)%list ->
  Forall (resolves token_set_ratio searchTracks) pre ->
  find_best_match token_set_ratio searchTracks track = Raise e ->
  create = (Raise (creating_error e), srv,
            match_progress (len tracks) 0 (List.length pre)).
Proof.
  intros Ht Hpre He. unfold create_plex_playlist. rewrite section_found.
  rewrite Ht at 2.
  now rewrite (resolve_loop_raise _ _ _ pre track post e Hpre He).
Qed.

Lemma create_no_match :
  Forall (resolves token_set_ratio searchTracks) tracks ->
  matches_of token_set_ratio searchTracks tracks = [] ->
  create = (Raise (creating_error NO_MATCHES), srv,
            match_progress (len tracks) 0 (List.length tracks)).
Proof.
  intros Hall Hm. unfold create_plex_playlist. rewrite section_found.
  rewrite (resolve_loop_ok _ _ _ tracks Hall), Hm. reflexivity.
Qed.

Lemma create_server_error (e : string) :
  Forall (resolves token_set_ratio searchTracks) tracks ->
  matches_of token_set_ratio searchTracks tracks <> [] ->
  Plex.createPlaylist_error env = Some e ->
  create = (Raise (creating_error e), srv,
            match_progress (len tracks) 0 (List.length tracks)).
Proof.
  intros Hall Hm He. unfold create_plex_playlist. rewrite section_found.
  rewrite (resolve_loop_ok _ _ _ tracks Hall), He. simpl.
  destruct (matches_of token_set_ratio searchTracks tracks); [congruence|reflexivity].
Qed.

Lemma create_done :
  Forall (resolves token_set_ratio searchTracks) tracks ->
  matches_of token_set_ratio searchTracks tracks <> [] ->
  Plex.createPlaylist_error env = None ->
  create
  = (Ok tt,
     Plex.mkServer
       (Plex.playlists srv
          ++ [set_poster env playlist_image_url
                (Plex.mkPlaylist playlist_name
                   (matches_of token_set_ratio searchTracks tracks) None)])%list,
     match_progress (len tracks) 0 (List.length tracks)).
Proof.
  intros Hall Hm He. unfold create_plex_playlist. rewrite section_found.
  rewrite (resolve_loop_ok _ _ _ tracks Hall), He. simpl.
  destruct (matches_of token_set_ratio searchTracks tracks); [congruence|reflexivity].
Qed.

End CreateFacts.

(** ** C2: an exception while resolving a track *)

(** C2, as the code has it.  A track without a match is recorded as not
    found and the loop goes on: when no track raises, the matches and the
    misses are those of all the tracks, in order, and the playlist is made of
    the matches.  An exception raised while resolving a track is not
    absorbed: it ends the loop, the call fails with the wrapped message and
    the server is left as it was. *)
Theorem resolution_exception_fails_the_run
    (token_set_ratio : string -> string -> Z) (env : Plex.Env)
    (searchTracks : string -> result (list Plex.Track))
    (tracks : list string) (playlist_name : string)
    (playlist_image_url : option string) (srv : Plex.Server) :
  Plex.sectionByID env = Ok searchTracks ->
  (forall pre track post e,
      tracks = (pre ++ track :: post)%list ->
      Forall (resolves token_set_ratio searchTracks) pre ->
      find_best_match token_set_ratio searchTracks track = Raise e ->
      create_plex_playlist token_set_ratio env tracks playlist_name
                           playlist_image_url srv
      = (Raise (creating_error e), srv,
         match_progress (len tracks) 0 (List.length pre)))
  /\ (Forall (resolves token_set_ratio searchTracks) tracks ->
      resolve_loop token_set_ratio searchTracks (len tracks) 0 tracks [] [] []
      = (Ok (matches_of token_set_ratio searchTracks tracks,
             misses_of token_set_ratio searchTracks tracks),
         match_progress (len tracks) 0 (List.length tracks))
      /\ (matches_of token_set_ratio searchTracks tracks <> [] ->
          Plex.createPlaylist_error env = None ->
          create_plex_playlist token_set_ratio env tracks playlist_name
                               playlist_image_url srv
          = (Ok tt,
             Plex.mkServer
               (Plex.playlists srv
                  ++ [set_poster env playlist_image_url
                        (Plex.mkPlaylist playlist_name
                           (matches_of token_set_ratio searchTracks tracks)
                           None)])%list,
             match_progress (len tracks) 0 (List.length tracks)))).
Proof.
  intros Hs. split.
  - intros pre track post e. now apply create_raise.
  - intros Hall. split.
    + now rewrite (resolve_loop_ok _ _ _ tracks Hall).
    + intros Hm He. now apply create_done.
Qed.

Lemma resolution_exception_fails_the_run_witness :
  create_plex_playlist word_ratio (plex None) ["Song - X"; "Other"] "Mix" None
                       empty_server
  = (Raise (creating_error "timed out"), empty_server,
     match_progress 2 0 1).
Proof.
  refine (proj1 (resolution_exception_fails_the_run word_ratio (plex None) library
                   ["Song - X"; "Other"] "Mix" None empty_server eq_refl)
                ["Song - X"] "Other" [] "timed out" eq_refl _ _).
  - constructor; [|constructor]. exists (Some (song_by_x 1)). vm_compute. reflexivity.
  - vm_compute. reflexivity.
Defined.

(** C2 as the specification states it fails: the first track matches, the
    search for the second one raises (or, for ["Tune"], the message of the
    accepted branch does), and the call fails without a playlist. *)
Lemma one_failing_track_fails_the_run :
  find_best_match word_ratio library "Song - X" = Ok (Some (song_by_x 1))
  /\ find_best_match word_ratio library "Other" = Raise "timed out"
  /\ create_plex_playlist word_ratio (plex None) ["Song - X"; "Other"] "Mix" None
                          empty_server
     = (Raise "Error creating Plex playlist: timed out", empty_server, [75%Z])
  /\ create_plex_playlist word_ratio (plex None) ["Song - X"; "Tune"] "Mix" None
                          empty_server
     = (Raise "Error creating Plex playlist: 'NoneType' object has no attribute 'title'",
        empty_server, [75%Z]).
Proof.
  split; [|split; [|split]]; vm_compute; reflexivity.
Qed.

(** ** C9: no empty and no half-made playlist *)

Lemma create_outcome
    (token_set_ratio : string -> string -> Z) (env : Plex.Env)
    (tracks : list string) (playlist_name : string)
    (playlist_image_url : option string) (srv : Plex.Server)
    (r : result unit) (srv' : Plex.Server) (emitted : list Z) :
  create_plex_playlist token_set_ratio env tracks playlist_name
                       playlist_image_url srv = (r, srv', emitted) ->
  ((exists e, r = Raise e) /\ srv' = srv)
  \/ (r = Ok tt
      /\ exists items poster,
           items <> []
           /\ Plex.playlists srv'
              = (Plex.playlists srv
                   ++ [Plex.mkPlaylist playlist_name items poster])%list).
Proof.
  destruct (Plex.sectionByID env) as [search|e] eqn:Hs.
  - destruct (first_raise token_set_ratio search tracks)
      as [Hall|(pre & t & post & e & Ht & Hpre & He)].
    + destruct (matches_of token_set_ratio search tracks) as [|m ms] eqn:Hm.
      * rewrite (create_no_match _ _ _ Hs _ _ _ _ Hall Hm).
        intros H; inversion H; subst. left. split; eauto.
      * destruct (Plex.createPlaylist_error env) as [e|] eqn:He.
        -- rewrite (create_server_error _ _ _ Hs _ _ _ _ e Hall); auto; [|congruence].
           intros H; inversion H; subst. left. split; eauto.
        -- rewrite (create_done _ _ _ Hs _ _ _ _ Hall); auto; [|congruence].
           intros H; inversion H; subst. right. split; [reflexivity|].
           rewrite Hm. unfold set_poster.
           destruct (truthy playlist_image_url);
             [destruct (Plex.poster_error env)|]; simpl;
             eexists (m :: ms), _; (split; [discriminate|reflexivity]).
    + rewrite (create_raise _ _ _ Hs _ _ _ _ pre t post e Ht Hpre He).
      intros H; inversion H; subst. left. split; eauto.
  - unfold create_plex_playlist. rewrite Hs.
    intros H; inversion H; subst. left. split; eauto.
Qed.

(** C9.  When no track has a match, [create_plex_playlist] fails with the
    "no matching tracks" message and leaves the server as it was.  Whatever
    the call and whatever the run, either it fails and creates nothing, or it
    succeeds and exactly one playlist with at least one track has been
    added.  When the poster request fails, the playlist of the matches is
    there all the same, without poster, and the call succeeds. *)
Theorem no_empty_and_no_partial_playlist
    (token_set_ratio : string -> string -> Z) (env : Plex.Env)
    (tracks : list string) (playlist_name : string)
    (playlist_image_url : option string) (srv : Plex.Server) :
  (forall searchTracks,
      Plex.sectionByID env = Ok searchTracks ->
      Forall (resolves token_set_ratio searchTracks) tracks ->
      matches_of token_set_ratio searchTracks tracks = [] ->
      create_plex_playlist token_set_ratio env tracks playlist_name
                           playlist_image_url srv
      = (Raise (creating_error NO_MATCHES), srv,
         match_progress (len tracks) 0 (List.length tracks)))
  /\ (forall r srv' emitted,
        create_plex_playlist token_set_ratio env tracks playlist_name
                             playlist_image_url srv = (r, srv', emitted) ->
        ((exists e, r = Raise e) /\ srv' = srv)
        \/ (r = Ok tt
            /\ exists items poster,
                 items <> []
                 /\ Plex.playlists srv'
                    = (Plex.playlists srv
                         ++ [Plex.mkPlaylist playlist_name items poster])%list))
  /\ (forall pv playlist_source r srv' emitted,
        run token_set_ratio pv env playlist_source srv = (r, srv', emitted) ->
        ((exists e, r = Raise e) /\ srv' = srv)
        \/ (r = Ok tt
            /\ exists name items poster,
                 items <> []
                 /\ Plex.playlists srv'
                    = (Plex.playlists srv
                         ++ [Plex.mkPlaylist name items poster])%list))
  /\ (forall searchTracks e,
        Plex.sectionByID env = Ok searchTracks ->
        Plex.poster_error env = Some e ->
        Forall (resolves token_set_ratio searchTracks) tracks ->
        matches_of token_set_ratio searchTracks tracks <> [] ->
        Plex.createPlaylist_error env = None ->
        create_plex_playlist token_set_ratio env tracks playlist_name
                             playlist_image_url srv
        = (Ok tt,
           Plex.mkServer
             (Plex.playlists srv
                ++ [Plex.mkPlaylist playlist_name
                      (matches_of token_set_ratio searchTracks tracks) None])%list,
           match_progress (len tracks) 0 (List.length tracks))).
Proof.
  split; [|split; [|split]].
  - intros search Hs Hall Hm. now apply (create_no_match _ _ search).
  - intros r srv' emitted. apply create_outcome.
  - intros pv src r srv' emitted. unfold run.
    destruct (fetch pv src) as [[[[trs name] image]|e] em].
    + destruct (create_plex_playlist token_set_ratio env trs name image srv)
        as [[r1 srv1] em1] eqn:E.
      intros H; inversion H; subst.
      destruct (create_outcome _ _ _ _ _ _ _ _ _ E) as [?|(? & items & poster & ? & ?)].
      * now left.
      * right. split; [assumption|]. now exists name, items, poster.
    + intros H; inversion H; subst. left. split; eauto.
  - intros search e Hs Hp Hall Hm He.
    rewrite (create_done _ _ _ Hs _ _ _ _ Hall Hm He).
    unfold set_poster. rewrite Hp.
    now destruct (truthy playlist_image_url).
Qed.

Lemma no_empty_and_no_partial_playlist_witness :
  create_plex_playlist word_ratio (plex None) ["Nothing"; "Missing - Z"] "Mix"
                       (Some "http://img") empty_server
  = (Raise (creating_error NO_MATCHES), empty_server, match_progress 2 0 2)
  /\ create_plex_playlist word_ratio (plex (Some "500")) ["Song - X"; "Nothing"]
                          "Mix" (Some "http://img") empty_server
     = (Ok tt,
        Plex.mkServer [Plex.mkPlaylist "Mix" [song_by_x 1] None],
        match_progress 2 0 2).
Proof.
  split.
  - refine (proj1 (no_empty_and_no_partial_playlist word_ratio (plex None)
                     ["Nothing"; "Missing - Z"] "Mix" (Some "http://img")
                     empty_server) library eq_refl _ eq_refl).
    constructor; [|constructor; [|constructor]];
      exists None; vm_compute; reflexivity.
  - refine (proj2 (proj2 (proj2
              (no_empty_and_no_partial_playlist word_ratio (plex (Some "500"))
                 ["Song - X"; "Nothing"] "Mix" (Some "http://img") empty_server)))
              library "500" eq_refl eq_refl _ _ eq_refl).
    + constructor; [|constructor; [|constructor]].
      * exists (Some (song_by_x 1)). vm_compute. reflexivity.
      * exists None. vm_compute. reflexivity.
    + vm_compute. discriminate.
Defined.

(** ** C1: the order of the tracks *)

(** The match stage keeps the order: the playlist is made of the matches of
    the tracks in the order of the tracks ([resolve_loop_ok], [create_done]).
    So does the Tidal fetch when the futures complete in the order they were
    submitted in. *)
Lemma tidal_fold_in_submission_order (items : list Tidal.Item) (total : Z)
    (done : list Tidal.Item) (tracks : list string) (emitted : list Z) :
  tracks = flat_map (fun item => match process_tidal_track item with
                                 | Some track => [track]
                                 | None => []
                                 end) done ->
  fst (fold_left (tidal_step (done ++ items) total)
                 (seq (List.length done) (List.length items)) (tracks, emitted))
  = flat_map (fun item => match process_tidal_track item with
                          | Some track => [track]
                          | None => []
                          end) (done ++ items).
Proof.
  revert done tracks emitted.
  induction items as [|item items IH]; intros done tracks emitted Ht.
  - simpl. now rewrite app_nil_r.
  - cbn [List.length seq fold_left].
    replace (done ++ item :: items)%list with ((done ++ [item]) ++ items)%list
      by now rewrite <- app_assoc.
    replace (S (List.length done)) with (List.length (done ++ [item])%list)
      by (rewrite length_app; simpl; lia).
    unfold tidal_step at 2.
    rewrite nth_error_app1 by (rewrite length_app; simpl; lia).
    rewrite nth_error_app2, Nat.sub_diag by lia. cbn [nth_error].
    apply IH. rewrite flat_map_app, <- Ht. simpl.
    destruct (process_tidal_track item); now rewrite ?app_nil_r.
Qed.

Lemma tidal_in_submission_order (p : Tidal.Playlist) :
  Tidal.totalNumberOfItems p <> 0%Z ->
  exists emitted,
    get_tidal_playlist_info p (seq 0 (List.length (Tidal.items p)))
    = (Ok (flat_map (fun item => match process_tidal_track item with
                                 | Some track => [track]
                                 | None => []
                                 end) (Tidal.items p),
           Tidal.name p, Tidal.image p), emitted).
Proof.
  intros Hz. unfold get_tidal_playlist_info.
  destruct (Tidal.items p) as [|item items] eqn:E; [now exists []|].
  apply Z.eqb_neq in Hz. rewrite Hz.
  pose proof (tidal_fold_in_submission_order (item :: items)
                (Tidal.totalNumberOfItems p) [] [] [] eq_refl) as H.
  change ([] ++ item :: items)%list with (item :: items) in H.
  change (List.length (@nil Tidal.Item)) with 0%nat in H.
  destruct (fold_left (tidal_step (item :: items) (Tidal.totalNumberOfItems p))
                      (seq 0 (List.length (item :: items))) ([], []))
    as [tracks emitted].
  cbn [fst] in H. rewrite H. now exists emitted.
Qed.

(** C1 at a Tidal playlist of two items whose second future completes
    first: the track list comes out in completion order, not in the order of
    the playlist. *)
Theorem tidal_tracks_follow_completion_order :
  Permutation [1; 0]%nat (seq 0 (List.length (Tidal.items tidal_mix)))
  /\ map process_tidal_track (Tidal.items tidal_mix)
     = [Some "A - X"; Some "B - Y"]
  /\ get_tidal_playlist_info tidal_mix [0; 1]%nat
     = (Ok (["A - X"; "B - Y"], "Mix", None), [25%Z; 50%Z])
  /\ get_tidal_playlist_info tidal_mix [1; 0]%nat
     = (Ok (["B - Y"; "A - X"], "Mix", None), [25%Z; 50%Z]).
Proof.
  split; [|split; [|split]]; try (vm_compute; reflexivity).
  simpl. apply perm_swap.
Qed.


(** ** The progress values of a run *)

Lemma sorted_app (l1 l2 : list Z) :
  StronglySorted Z.le l1 -> StronglySorted Z.le l2 ->
  (forall a b, In a l1 -> In b l2 -> (a <= b)%Z) ->
  StronglySorted Z.le (l1 ++ l2).
Proof.
  intros H1 H2 H. induction H1 as [|a l1 Hs IH Ha]; simpl; [exact H2|].
  constructor.
  - apply IH. intros x y Hx Hy. apply H; [now right|exact Hy].
  - apply Forall_app. split; [exact Ha|].
    apply Forall_forall. intros y Hy. apply H; [now left|exact Hy].
Qed.

Lemma sorted_map (f : Z -> Z) (lo : Z) (cs : list Z) :
  (forall a b, (lo <= a <= b)%Z -> (f a <= f b)%Z) ->
  Forall (fun c => (lo <= c)%Z) cs ->
  StronglySorted Z.le cs -> StronglySorted Z.le (map f cs).
Proof.
  intros Hf Hlo Hs. induction Hs as [|c cs Hs IH Hc]; simpl; constructor.
  - apply IH. now inversion Hlo.
  - inversion Hlo as [|? ? Hc0 Hrest]; subst.
    rewrite Forall_forall in *. intros y Hy.
    apply in_map_iff in Hy as (x & <- & Hx).
    apply Hf. split; [exact Hc0|now apply Hc].
Qed.

Lemma sorted_seq (a k : nat) : StronglySorted Z.le (map Z.of_nat (seq a k)).
Proof.
  revert a; induction k as [|k IH]; intros a; simpl; constructor.
  - apply IH.
  - apply Forall_forall. intros y Hy.
    apply in_map_iff in Hy as (x & <- & Hx). apply in_seq in Hx. lia.
Qed.

Lemma match_progress_map (total : Z) (k : nat) :
  match_progress total 0 k
  = map (fun c => (50 + half_progress c total)%Z) (map Z.of_nat (seq 1 k)).
Proof. unfold match_progress. now rewrite map_map. Qed.

Lemma match_progress_sorted (total : Z) (k : nat) :
  (0 < total)%Z -> StronglySorted Z.le (match_progress total 0 k).
Proof.
  intros Ht. rewrite match_progress_map.
  apply sorted_map with (lo := 0%Z).
  - intros a b Hab. apply Z.add_le_mono_l. now apply half_progress_mono.
  - apply Forall_forall. intros y Hy.
    apply in_map_iff in Hy as (x & <- & _). lia.
  - apply sorted_seq.
Qed.

Lemma match_progress_in (total : Z) (k : nat) (v : Z) :
  In v (match_progress total 0 k) ->
  exists j, (1 <= j <= k)%nat /\ v = (50 + half_progress (Z.of_nat j) total)%Z.
Proof.
  unfold match_progress. intros H.
  apply in_map_iff in H as (j & <- & Hj). apply in_seq in Hj.
  exists j. split; [lia|reflexivity].
Qed.

(** What a fetch loop has emitted: the formula at a non-decreasing sequence
    of counts. *)
Lemma tidal_fold_counts (items : list Tidal.Item) (total : Z)
    (completion : list nat) :
  forall tracks emitted tracks' emitted',
    fold_left (tidal_step items total) completion (tracks, emitted)
    = (tracks', emitted') ->
    exists cs,
      emitted' = (emitted ++ map (fun c => half_progress c total) cs)%list
      /\ StronglySorted Z.le cs
      /\ Forall (fun c => (len tracks <= c <= len tracks')%Z) cs
      /\ (len tracks <= len tracks'
          <= len tracks + Z.of_nat (List.length completion))%Z.
Proof.
  induction completion as [|k rest IH]; intros tracks emitted tracks' emitted' H.
  - simpl in H. inversion H; subst. exists []. simpl.
    rewrite app_nil_r. repeat split; try constructor; lia.
  - cbn [fold_left] in H.
    destruct (tidal_step items total (tracks, emitted) k) as [tracks1 emitted1] eqn:E.
    assert (E1 : emitted1 = (emitted ++ [half_progress (len tracks1) total])%list
                 /\ (len tracks <= len tracks1 <= len tracks + 1)%Z).
    { unfold tidal_step in E. inversion E; subst. split; [reflexivity|].
      unfold len.
      destruct (nth_error items k) as [item|]; [|lia].
      destruct (process_tidal_track item); [|lia].
      rewrite length_app. simpl. lia. }
    destruct E1 as [-> B1].
    destruct (IH _ _ _ _ H) as (cs & -> & Hs & Hb & B).
    exists (len tracks1 :: cs). cbn [map List.length].
    rewrite <- app_assoc. repeat split; try lia.
    + constructor; [exact Hs|].
      eapply Forall_impl; [|exact Hb]. intros c Hc. simpl in Hc. lia.
    + constructor; [lia|].
      eapply Forall_impl; [|exact Hb]. intros c Hc. simpl in Hc. lia.
Qed.

Lemma deezer_fold_counts (total : Z) (l : list Deezer.Track) :
  forall tracks emitted tracks' emitted',
    fold_left (deezer_step total) l (tracks, emitted) = (tracks', emitted') ->
    exists cs,
      emitted' = (emitted ++ map (fun c => half_progress c total) cs)%list
      /\ StronglySorted Z.le cs
      /\ Forall (fun c => (len tracks <= c <= len tracks')%Z) cs
      /\ (len tracks <= len tracks' <= len tracks + Z.of_nat (List.length l))%Z.
Proof.
  induction l as [|t rest IH]; intros tracks emitted tracks' emitted' H.
  - simpl in H. inversion H; subst. exists []. simpl.
    rewrite app_nil_r. repeat split; try constructor; lia.
  - cbn [fold_left] in H. unfold deezer_step at 2 in H.
    destruct (IH _ _ _ _ H) as (cs & -> & Hs & Hb & B).
    assert (L : len (tracks ++ [deezer_track_string t])%list = (len tracks + 1)%Z).
    { unfold len. rewrite length_app. simpl. lia. }
    rewrite L in Hb, B.
    exists ((len tracks + 1)%Z :: cs). cbn [map List.length].
    rewrite <- app_assoc, L. repeat split; try lia.
    + constructor; [exact Hs|].
      eapply Forall_impl; [|exact Hb]. intros c Hc. simpl in Hc. lia.
    + constructor; [lia|].
      eapply Forall_impl; [|exact Hb]. intros c Hc. simpl in Hc. lia.
Qed.

Lemma counts_fetch_values (total bound : Z) (cs : list Z) :
  (0 < total)%Z -> (bound <= total)%Z ->
  StronglySorted Z.le cs ->
  Forall (fun c => (0 <= c <= bound)%Z) cs ->
  fetch_values (map (fun c => half_progress c total) cs).
Proof.
  intros Ht Hb Hs Hc. split.
  - apply sorted_map with (lo := 0%Z); [| |exact Hs].
    + intros a b Hab. now apply half_progress_mono.
    + eapply Forall_impl; [|exact Hc]. simpl. intros; lia.
  - intros v Hv. apply in_map_iff in Hv as (c & <- & Hin).
    rewrite Forall_forall in Hc. specialize (Hc c Hin).
    split.
    + split; [apply half_progress_nonneg|apply half_progress_le_50]; lia.
    + exists c, total. repeat split; lia.
Qed.

Lemma fetch_values_nil : fetch_values [].
Proof. split; [constructor|intros v []]. Qed.

Lemma fetch_emits_fetch_values (pv : Providers) (playlist_source : string) :
  counts_consistent pv ->
  fetch_values (snd (fetch pv playlist_source))
  /\ (forall e, fst (fetch pv playlist_source) = Raise e ->
                snd (fetch pv playlist_source) = []).
Proof.
  intros [Hd Ht]. unfold fetch.
  destruct (PyStr.contains "open.spotify.com" playlist_source).
  { destruct (spotify pv); simpl; split; auto using fetch_values_nil. }
  destruct (PyStr.contains "deezer.com" playlist_source).
  { destruct (deezer pv) as [p|e]; [|simpl; split; auto using fetch_values_nil].
    specialize (Hd p eq_refl). unfold get_deezer_playlist_info.
    destruct (Deezer.tracks p) as [|t rest] eqn:E;
      [simpl; split; [apply fetch_values_nil|discriminate]|].
    rewrite <- E in *.
    destruct (Z.eqb_spec (Deezer.nb_tracks p) 0) as [Z0|NZ];
      [simpl; split; auto using fetch_values_nil|].
    destruct (fold_left (deezer_step (Deezer.nb_tracks p)) (Deezer.tracks p) ([], []))
      as [tracks emitted] eqn:F.
    destruct (deezer_fold_counts _ _ _ _ _ _ F) as (cs & -> & Hs & Hb & B).
    simpl. split; [|discriminate].
    unfold len in *. simpl in B, Hb.
    assert (0 < Deezer.nb_tracks p)%Z by (rewrite E in Hd; simpl in Hd; lia).
    apply counts_fetch_values with (bound := Z.of_nat (List.length (Deezer.tracks p)));
      try assumption; try lia.
    eapply Forall_impl; [|exact Hb]. simpl. intros; lia. }
  destruct (PyStr.contains "tidal.com" playlist_source).
  { destruct (tidal pv) as [p|e]; [|simpl; split; auto using fetch_values_nil].
    destruct (Ht p eq_refl) as [Hc Hperm]. unfold get_tidal_playlist_info.
    destruct (Tidal.items p) as [|t rest] eqn:E;
      [simpl; split; [apply fetch_values_nil|discriminate]|].
    rewrite <- E in *.
    destruct (Z.eqb_spec (Tidal.totalNumberOfItems p) 0) as [Z0|NZ];
      [simpl; split; auto using fetch_values_nil|].
    destruct (fold_left (tidal_step (Tidal.items p) (Tidal.totalNumberOfItems p))
                        (tidal_completion pv) ([], []))
      as [tracks emitted] eqn:F.
    destruct (tidal_fold_counts _ _ _ _ _ _ _ F) as (cs & -> & Hs & Hb & B).
    simpl. split; [|discriminate].
    apply Permutation_length in Hperm. rewrite length_seq in Hperm.
    unfold len in *. simpl in B, Hb.
    assert (0 < Tidal.totalNumberOfItems p)%Z by (rewrite E in Hc; simpl in Hc; lia).
    apply counts_fetch_values with (bound := Z.of_nat (List.length (Tidal.items p)));
      try assumption; try lia.
    eapply Forall_impl; [|exact Hb]. simpl. intros; lia. }
  simpl. split; auto using fetch_values_nil.
Qed.

(** What [create_plex_playlist] emits: the values of the positions it went
    through, all of them exactly when every track resolved. *)
Lemma create_emits (token_set_ratio : string -> string -> Z) (env : Plex.Env)
    (tracks : list string) (playlist_name : string)
    (playlist_image_url : option string) (srv : Plex.Server) :
  exists k,
    snd (create_plex_playlist token_set_ratio env tracks playlist_name
                              playlist_image_url srv)
    = match_progress (len tracks) 0 k
    /\ (k <= List.length tracks)%nat
    /\ (k = List.length tracks -> (0 < k)%nat ->
        exists searchTracks,
          Plex.sectionByID env = Ok searchTracks
          /\ Forall (resolves token_set_ratio searchTracks) tracks)
    /\ (forall searchTracks,
          Plex.sectionByID env = Ok searchTracks ->
          Forall (resolves token_set_ratio searchTracks) tracks ->
          k = List.length tracks).
Proof.
  destruct (Plex.sectionByID env) as [search|e] eqn:Hs.
  - destruct (first_raise token_set_ratio search tracks)
      as [Hall|(pre & t & post & e & Ht & Hpre & He)].
    + exists (List.length tracks). split; [|split; [lia|split; eauto]].
      destruct (matches_of token_set_ratio search tracks) as [|m ms] eqn:Hm.
      * now rewrite (create_no_match _ _ _ Hs _ _ _ _ Hall Hm).
      * destruct (Plex.createPlaylist_error env) as [e|] eqn:He.
        -- rewrite (create_server_error _ _ _ Hs _ _ _ _ e Hall); auto; congruence.
        -- rewrite (create_done _ _ _ Hs _ _ _ _ Hall); auto; congruence.
    + exists (List.length pre).
      rewrite (create_raise _ _ _ Hs _ _ _ _ pre t post e Ht Hpre He).
      split; [reflexivity|]. subst tracks. rewrite length_app. simpl.
      split; [lia|split; [lia|]].
      intros search' Hs' Hall. exfalso.
      assert (search' = search) by congruence. subst search'.
      rewrite Forall_forall in Hall.
      destruct (Hall t) as [found Hf]; [apply in_or_app; right; now left|].
      congruence.
  - exists 0%nat. unfold create_plex_playlist. rewrite Hs. simpl.
    split; [reflexivity|split; [lia|split; [lia|discriminate]]].
Qed.

Lemma match_progress_values (n k : nat) :
  (k <= n)%nat ->
  StronglySorted Z.le (match_progress (Z.of_nat n) 0 k)
  /\ forall v, In v (match_progress (Z.of_nat n) 0 k) ->
       (50 <= v)%Z
       /\ exists completed total,
            (0 <= completed <= total)%Z /\ (0 < total)%Z
            /\ v = (50 + half_progress completed total)%Z.
Proof.
  intros Hk. destruct n as [|n].
  - replace k with 0%nat by lia. split; [constructor|intros v []].
  - split; [apply match_progress_sorted; lia|].
    intros v Hv. apply match_progress_in in Hv as (j & Hj & ->).
    split.
    + pose proof (half_progress_nonneg (Z.of_nat j) (Z.of_nat (S n))). lia.
    + exists (Z.of_nat j), (Z.of_nat (S n)). repeat split; lia.
Qed.

(** [100] is the value of the last position only. *)
Lemma match_progress_100 (n k : nat) :
  (k <= n)%nat -> (Z.of_nat n <= 2 ^ 53)%Z ->
  In 100%Z (match_progress (Z.of_nat n) 0 k) ->
  k = n /\ (0 < n)%nat /\ last (match_progress (Z.of_nat n) 0 k) 0%Z = 100%Z.
Proof.
  intros Hk Hn Hin.
  apply match_progress_in in Hin as (j & Hj & E).
  assert (Hjn : j = n).
  { destruct (Nat.eq_dec j n) as [|NE]; [assumption|exfalso].
    pose proof (half_progress_lt_50 (Z.of_nat j) (Z.of_nat n)). lia. }
  subst j. assert (k = n) by lia. subst k.
  split; [reflexivity|split; [lia|]].
  destruct n as [|n]; [lia|].
  unfold match_progress. rewrite seq_S, map_app. cbn [map]. rewrite last_last.
  replace (0 + Z.of_nat (1 + n))%Z with (Z.of_nat (S n)) by lia.
  rewrite half_progress_full; lia.
Qed.


Lemma last_app_nonempty (l1 l2 : list Z) (d : Z) :
  l2 <> [] -> last (l1 ++ l2) d = last l2 d.
Proof.
  intros H. destruct l2 as [|x l2] using rev_ind; [congruence|].
  now rewrite app_assoc, !last_last.
Qed.

(** ** C8: the progress values *)

(** The value under [int(...)] lies in [[v, v + 1)]: the progress value is
    the float product truncated, not rounded. *)
Lemma half_progress_truncates (completed total : Z) :
  (0 <= completed)%Z -> (0 < total)%Z ->
  (inject_Z (half_progress completed total)
   <= PyFloat.fmul (PyFloat.int_truediv completed total) (PyFloat.of_int 50)
   < inject_Z (half_progress completed total) + 1)%Q.
Proof.
  intros Hc Ht. unfold half_progress.
  set (x := PyFloat.fmul (PyFloat.int_truediv completed total) (PyFloat.of_int 50)).
  assert (Hx : (0 <= x)%Q).
  { unfold x, PyFloat.fmul, PyFloat.int_truediv. rewrite of_int_50.
    apply scaled_nonneg. now apply quotient_nonneg. }
  rewrite (py_int_floor x Hx). split.
  - apply Qfloor_le.
  - pose proof (Qlt_floor x) as H.
    rewrite inject_Z_plus in H. exact H.
Qed.

(** The Deezer loop in closed form. *)
Lemma deezer_fold (total : Z) (l : list Deezer.Track) :
  forall tracks emitted,
    fold_left (deezer_step total) l (tracks, emitted)
    = ((tracks ++ map deezer_track_string l)%list,
       (emitted
          ++ map (fun j => half_progress (len tracks + Z.of_nat j) total)
                 (seq 1 (List.length l)))%list).
Proof.
  induction l as [|t rest IH]; intros tracks emitted.
  - simpl. now rewrite !app_nil_r.
  - cbn [fold_left]. unfold deezer_step at 2. rewrite IH.
    cbn [map List.length seq]. rewrite <- !app_assoc. cbn [app].
    assert (L : len (tracks ++ [deezer_track_string t])%list = (len tracks + 1)%Z).
    { unfold len. rewrite length_app. simpl. lia. }
    rewrite L. do 3 f_equal.
    rewrite <- (seq_shift (List.length rest) 1), map_map. apply map_ext. intros j.
    f_equal. lia.
Qed.

(** The values the Tidal loop emits: after the [j]-th future, the formula at
    the number of strings collected so far. *)
Lemma tidal_fold_values (items : list Tidal.Item) (total : Z)
    (completion : list nat) :
  forall tracks emitted,
    snd (fold_left (tidal_step items total) completion (tracks, emitted))
    = (emitted
         ++ map (fun j => half_progress
                            (len (tracks ++ tidal_collected items completion j)%list)
                            total)
                (seq 1 (List.length completion)))%list.
Proof.
  induction completion as [|k rest IH]; intros tracks emitted.
  - simpl. now rewrite app_nil_r.
  - cbn [fold_left]. unfold tidal_step at 2. rewrite IH.
    cbn [List.length seq map]. rewrite <- app_assoc. cbn [app].
    f_equal.
    assert (W : match nth_error items k with
                | Some item =>
                    match process_tidal_track item with
                    | Some track => (tracks ++ [track])%list
                    | None => tracks
                    end
                | None => tracks
                end
                = (tracks ++ match nth_error items k with
                             | Some item => well_formed_tidal item
                             | None => []
                             end)%list).
    { unfold well_formed_tidal. destruct (nth_error items k) as [item|];
        [destruct (process_tidal_track item)|]; now rewrite ?app_nil_r. }
    rewrite W. f_equal.
    + unfold tidal_collected. cbn [firstn flat_map]. now rewrite app_nil_r.
    + rewrite <- (seq_shift (List.length rest) 1), map_map. apply map_ext.
      intros j. unfold tidal_collected. cbn [firstn flat_map].
      now rewrite <- app_assoc.
Qed.

(** The values of the fetch phase, in closed form, for each provider. *)
Lemma fetch_emits_exactly (pv : Providers) (playlist_source : string) :
  counts_consistent pv ->
  (PyStr.contains "open.spotify.com" playlist_source = true ->
   snd (fetch pv playlist_source) = [])
  /\ (forall p,
        PyStr.contains "open.spotify.com" playlist_source = false ->
        PyStr.contains "deezer.com" playlist_source = true ->
        deezer pv = Ok p ->
        snd (fetch pv playlist_source)
        = map (fun k => half_progress (Z.of_nat k) (Deezer.nb_tracks p))
              (seq 1 (List.length (Deezer.tracks p))))
  /\ (forall p,
        PyStr.contains "open.spotify.com" playlist_source = false ->
        PyStr.contains "deezer.com" playlist_source = false ->
        PyStr.contains "tidal.com" playlist_source = true ->
        tidal pv = Ok p ->
        snd (fetch pv playlist_source)
        = map (fun j => half_progress
                          (len (tidal_collected (Tidal.items p)
                                                (tidal_completion pv) j))
                          (Tidal.totalNumberOfItems p))
              (seq 1 (List.length (Tidal.items p)))).
Proof.
  intros [Hd Ht]. unfold fetch. split; [|split].
  - intros ->. now destruct (spotify pv).
  - intros p -> -> Hp. rewrite Hp. specialize (Hd p Hp).
    unfold get_deezer_playlist_info.
    destruct (Deezer.tracks p) as [|t rest] eqn:E; [reflexivity|].
    destruct (Z.eqb_spec (Deezer.nb_tracks p) 0) as [Z0|NZ].
    { exfalso. unfold len in Hd. simpl in Hd. lia. }
    rewrite deezer_fold. reflexivity.
  - intros p -> -> -> Hp. rewrite Hp. destruct (Ht p Hp) as [Hc Hperm].
    unfold get_tidal_playlist_info.
    destruct (Tidal.items p) as [|t rest] eqn:E; [reflexivity|].
    rewrite <- E in *.
    destruct (Z.eqb_spec (Tidal.totalNumberOfItems p) 0) as [Z0|NZ].
    { exfalso. rewrite E in Hc. unfold len in Hc. simpl in Hc. lia. }
    pose proof (tidal_fold_values (Tidal.items p) (Tidal.totalNumberOfItems p)
                  (tidal_completion pv) [] []) as V.
    destruct (fold_left (tidal_step (Tidal.items p) (Tidal.totalNumberOfItems p))
                        (tidal_completion pv) ([], [])) as [tracks emitted].
    cbn [snd] in *. rewrite V. cbn [app].
    apply Permutation_length in Hperm. rewrite length_seq in Hperm.
    now rewrite Hperm.
Qed.

(** C8, as the code has it.  When the providers announce at least as many
    tracks as they deliver, the progress values of a run are non-decreasing.
    Each value is [int(completed / total * 50)], the float product truncated
    and not rounded, the match loop adding [50] to it.  The fetch phase
    emits exactly these values: Spotify none; Deezer, after its [k]-th
    track, the formula at [k] and [nb_tracks]; Tidal, after the [j]-th
    completed future, the formula at the number of strings collected so far
    and [totalNumberOfItems].  The match loop then emits, one value per
    track it went through, [50] plus the formula at the position and the
    number of tracks, for every track when each of them resolves.  The value
    [100] is emitted only by the last track of the match loop, once the
    fetch has succeeded and every track has been resolved, for a list of at
    most [2^53] tracks. *)
Theorem progress_is_monotone_and_truncated
    (token_set_ratio : string -> string -> Z) (pv : Providers) (env : Plex.Env)
    (playlist_source : string) (srv : Plex.Server)
    (r : result unit) (srv' : Plex.Server) (emitted : list Z) :
  counts_consistent pv ->
  run token_set_ratio pv env playlist_source srv = (r, srv', emitted) ->
  StronglySorted Z.le emitted
  /\ (forall v, In v emitted ->
        exists completed total,
          (0 <= completed <= total)%Z /\ (0 < total)%Z
          /\ (v = half_progress completed total
              \/ v = (50 + half_progress completed total)%Z)
          /\ (inject_Z (half_progress completed total)
              <= PyFloat.fmul (PyFloat.int_truediv completed total)
                              (PyFloat.of_int 50)
              < inject_Z (half_progress completed total) + 1)%Q)
  /\ ((PyStr.contains "open.spotify.com" playlist_source = true ->
       snd (fetch pv playlist_source) = [])
      /\ (forall p,
            PyStr.contains "open.spotify.com" playlist_source = false ->
            PyStr.contains "deezer.com" playlist_source = true ->
            deezer pv = Ok p ->
            snd (fetch pv playlist_source)
            = map (fun k => half_progress (Z.of_nat k) (Deezer.nb_tracks p))
                  (seq 1 (List.length (Deezer.tracks p))))
      /\ (forall p,
            PyStr.contains "open.spotify.com" playlist_source = false ->
            PyStr.contains "deezer.com" playlist_source = false ->
            PyStr.contains "tidal.com" playlist_source = true ->
            tidal pv = Ok p ->
            snd (fetch pv playlist_source)
            = map (fun j => half_progress
                              (len (tidal_collected (Tidal.items p)
                                                    (tidal_completion pv) j))
                              (Tidal.totalNumberOfItems p))
                  (seq 1 (List.length (Tidal.items p)))))
  /\ ((forall e fetched,
         fetch pv playlist_source = (Raise e, fetched) -> emitted = [])
      /\ (forall tracks name image fetched,
            fetch pv playlist_source = (Ok (tracks, name, image), fetched) ->
            exists k,
              (k <= List.length tracks)%nat
              /\ emitted
                 = (fetched
                      ++ map (fun i => (50 + half_progress (Z.of_nat i)
                                                           (len tracks))%Z)
                             (seq 1 k))%list))
  /\ (forall tracks name image fetched searchTracks,
        fetch pv playlist_source = (Ok (tracks, name, image), fetched) ->
        Plex.sectionByID env = Ok searchTracks ->
        Forall (resolves token_set_ratio searchTracks) tracks ->
        emitted
        = (fetched
             ++ map (fun i => (50 + half_progress (Z.of_nat i) (len tracks))%Z)
                    (seq 1 (List.length tracks)))%list)
  /\ (In 100%Z emitted ->
      exists tracks name image fetched,
        fetch pv playlist_source = (Ok (tracks, name, image), fetched)
        /\ ((len tracks <= 2 ^ 53)%Z ->
            (exists searchTracks,
                Plex.sectionByID env = Ok searchTracks
                /\ Forall (resolves token_set_ratio searchTracks) tracks)
            /\ last emitted 0%Z = 100%Z)).
Proof.
  intros Hc Hrun.
  destruct (fetch_emits_fetch_values pv playlist_source Hc) as [[Fs Fv] Fe].
  pose proof (fetch_emits_exactly pv playlist_source Hc) as Fx.
  unfold run in Hrun.
  destruct (fetch pv playlist_source) as [[[[tracks name] image]|e] fetched] eqn:F;
    simpl in Fs, Fv, Fe.
  - destruct (create_plex_playlist token_set_ratio env tracks name image srv)
      as [[r1 srv1] em1] eqn:C.
    inversion Hrun; subst r1 srv1 emitted. clear Hrun.
    destruct (create_emits token_set_ratio env tracks name image srv)
      as (k & Ek & Hk & Hlast & Hall).
    rewrite C in Ek. simpl in Ek. subst em1.
    destruct (match_progress_values (List.length tracks) k Hk) as [Ms Mv].
    fold (len tracks) in Ms, Mv.
    split; [|split; [|split; [|split; [|split]]]].
    + apply sorted_app; [exact Fs|exact Ms|].
      intros a b Ha Hb. destruct (Fv a Ha) as [[_ Ha50] _].
      destruct (Mv b Hb) as [Hb50 _]. lia.
    + intros v Hv. apply in_app_or in Hv as [Hv|Hv].
      * destruct (Fv v Hv) as [_ (c & t & H1 & H2 & H3)].
        exists c, t. split; [exact H1|split; [exact H2|split; [now left|]]].
        apply half_progress_truncates; lia.
      * destruct (Mv v Hv) as [_ (c & t & H1 & H2 & H3)].
        exists c, t. split; [exact H1|split; [exact H2|split; [now right|]]].
        apply half_progress_truncates; lia.
    + exact Fx.
    + split; [intros e fetched0 E; discriminate E|].
      intros tracks0 name0 image0 fetched0 E.
      inversion E; subst tracks0 name0 image0 fetched0.
      exists k. split; [exact Hk|reflexivity].
    + intros tracks0 name0 image0 fetched0 search E Hs Hres.
      inversion E; subst tracks0 name0 image0 fetched0.
      rewrite (Hall search Hs Hres). reflexivity.
    + intros H100. exists tracks, name, image, fetched.
      split; [reflexivity|]. intros Hbound.
      apply in_app_or in H100 as [H100|H100].
      * destruct (Fv _ H100) as [[_ H50] _]. lia.
      * destruct (match_progress_100 (List.length tracks) k Hk Hbound H100)
          as (-> & Hpos & Hl).
        split; [now apply Hlast|].
        rewrite last_app_nonempty; [exact Hl|].
        intros E. apply (f_equal (@List.length Z)) in E.
        unfold len in E. rewrite match_progress_length in E. simpl in E. lia.
  - inversion Hrun; subst. pose proof (Fe e eq_refl) as E0. subst emitted.
    split; [constructor|split; [intros v []|split; [exact Fx|split; [|split]]]].
    + split; [reflexivity|]. intros tracks0 name0 image0 fetched0 E. discriminate E.
    + discriminate.
    + intros [].
Qed.

Lemma progress_is_monotone_and_truncated_witness :
  run word_ratio (providers [1; 0]%nat) (plex None)
      "https://tidal.com/browse/playlist/1" empty_server
  = (Raise (creating_error NO_MATCHES), empty_server, [25; 50; 75; 100]%Z)
  /\ StronglySorted Z.le [25; 50; 75; 100]%Z
  /\ snd (fetch (providers [1; 0]%nat) "https://tidal.com/browse/playlist/1")
     = [half_progress 1 2; half_progress 2 2].
Proof.
  assert (C : counts_consistent (providers [1; 0]%nat)).
  { split.
    - intros p H. inversion H; subst. vm_compute. discriminate.
    - intros p H. inversion H; subst. split.
      + vm_compute. discriminate.
      + simpl. apply perm_swap. }
  assert (R : run word_ratio (providers [1; 0]%nat) (plex None)
                  "https://tidal.com/browse/playlist/1" empty_server
              = (Raise (creating_error NO_MATCHES), empty_server,
                 [25; 50; 75; 100]%Z)) by (vm_compute; reflexivity).
  destruct (progress_is_monotone_and_truncated word_ratio (providers [1; 0]%nat)
              (plex None) "https://tidal.com/browse/playlist/1" empty_server
              _ _ _ C R) as (Hs & _ & (_ & _ & Ht) & _).
  split; [exact R|split; [exact Hs|]].
  exact (Ht tidal_mix eq_refl eq_refl eq_refl eq_refl).
Defined.

(** C8 as the specification states it fails: the values are truncated, not
    rounded.  For three tracks the run emits [16] and [66] where [round]
    gives [17] and [67]. *)
Lemma progress_is_not_rounded :
  snd (run word_ratio (providers [1; 0]%nat) (plex None)
           "https://www.deezer.com/playlist/1" empty_server)
  = [16; 33; 50; 66; 83; 100]%Z
  /\ map (fun i => spec_half_progress i 3 50) [1; 2; 3]%Z = [17; 33; 50]%Z
  /\ map (fun i => (50 + spec_half_progress i 3 50)%Z) [1; 2; 3]%Z
     = [67; 83; 100]%Z
  /\ half_progress 1 3 <> spec_half_progress 1 3 50.
Proof.
  split; [|split; [|split]]; try (vm_compute; reflexivity).
  vm_compute. discriminate.
Qed.

(* ================================================================== *)
(** * Further properties of the code *)

(** ** Local playlist lines and the parsed fields *)

Lemma strip_head (s : string) :
  PyStr.strip s = ""
  \/ exists c t, PyStr.strip s = String c t /\ PyStr.is_space c = false.
Proof.
  unfold PyStr.strip.
  destruct (lstrip_head s) as [->|(c & t & -> & Hc)]; [now left|].
  destruct (rstrip_head c t Hc) as [t' ->]. right. now exists c, t'.
Qed.

Lemma strip_of_head (c : ascii) (t : string) :
  PyStr.is_space c = false -> exists t', PyStr.strip (String c t) = String c t'.
Proof.
  intros Hc. unfold PyStr.strip. simpl PyStr.lstrip. rewrite Hc.
  now apply rstrip_head.
Qed.

(** Every track read from a local playlist file is a non-empty stripped
    line, and [parse_track_info] gives it a non-empty title. *)
Theorem local_tracks_have_titles (content : list string) (line : string) :
  In line (get_local_tracks content) ->
  line <> "" /\ PyStr.strip line = line /\ fst (parse_track_info line) <> "".
Proof.
  intros Hin.
  pose proof (get_local_tracks_stripped content line Hin) as Hs.
  assert (Hne : line <> "").
  { unfold get_local_tracks in Hin. apply in_map_iff in Hin as (raw & <- & Hraw).
    apply filter_In in Hraw as [_ Hf]. apply andb_prop in Hf as [Hf _].
    apply negb_true_iff in Hf. now apply String.eqb_neq in Hf. }
  split; [exact Hne|split; [exact Hs|]].
  destruct (strip_head line) as [E|(c & t & E & Hc)]; [congruence|].
  rewrite Hs in E. subst line.
  unfold parse_track_info. rewrite split_once_cons.
  assert (P : PyStr.strip_prefix SEP (String c t) = None).
  { unfold SEP. cbn [PyStr.strip_prefix].
    destruct (Ascii.eqb_spec " " c) as [<-|]; [discriminate Hc|reflexivity]. }
  rewrite P.
  destruct (PyStr.split_once SEP t) as [[l r]|]; cbn [fst].
  - destruct (strip_of_head c l Hc) as [t' ->]. discriminate.
  - destruct (strip_of_head c t Hc) as [t' ->]. discriminate.
Qed.

Lemma local_tracks_have_titles_witness :
  fst (parse_track_info "Song A - Artist X") <> "".
Proof.
  refine (proj2 (proj2 (local_tracks_have_titles
                          ["  Song A - Artist X  "; "#EXTM3U"; ""]
                          "Song A - Artist X" _))).
  simpl. now left.
Defined.

Lemma lstrip_suffix (s : string) : exists ws, s = ws ++ PyStr.lstrip s.
Proof.
  induction s as [|c s [ws IH]]; [now exists ""|].
  simpl. destruct (PyStr.is_space c).
  - exists (String c ws). simpl. now rewrite <- IH.
  - now exists "".
Qed.

Lemma rstrip_prefix (s : string) : exists ws, s = PyStr.rstrip s ++ ws.
Proof.
  induction s as [|c s [ws IH]]; [now exists ""|].
  simpl. destruct (PyStr.rstrip s) as [|d r] eqn:E.
  - destruct (PyStr.is_space c).
    + exists (String c s). reflexivity.
    + exists ws. simpl. now rewrite IH.
  - exists ws. simpl. now rewrite IH at 1.
Qed.

Lemma strip_inside (s : string) : exists ws1 ws2, s = ws1 ++ PyStr.strip s ++ ws2.
Proof.
  destruct (lstrip_suffix s) as [ws1 H1].
  destruct (rstrip_prefix (PyStr.lstrip s)) as [ws2 H2].
  exists ws1, ws2. unfold PyStr.strip. now rewrite <- H2.
Qed.

(** The fields [parse_track_info] returns are stripped, and the title never
    contains the separator [" - "]. *)
Theorem parse_track_info_normal_form (track : string) :
  PyStr.strip (fst (parse_track_info track)) = fst (parse_track_info track)
  /\ PyStr.strip (snd (parse_track_info track)) = snd (parse_track_info track)
  /\ forall l r, fst (parse_track_info track) <> l ++ SEP ++ r.
Proof.
  unfold parse_track_info.
  destruct (PyStr.split_once SEP track) as [[l0 r0]|] eqn:E; cbn [fst snd].
  - split; [apply strip_idem|split; [apply strip_idem|]].
    intros l r H.
    destruct (strip_inside l0) as (ws1 & ws2 & Hl0).
    pose proof (split_once_cut _ _ _ _ E) as Hc.
    pose proof (split_once_leftmost _ _ _ _ E (ws1 ++ l)
                  (r ++ ws2 ++ SEP ++ r0)) as Hm.
    assert (Ht : track = (ws1 ++ l) ++ SEP ++ r ++ ws2 ++ SEP ++ r0).
    { rewrite Hc, Hl0, H. now rewrite !string_app_assoc. }
    specialize (Hm Ht).
    rewrite Hl0, H in Hm. rewrite !string_length_app in Hm. simpl in Hm. lia.
  - split; [apply strip_idem|split; [reflexivity|]].
    intros l r H.
    destruct (strip_inside track) as (ws1 & ws2 & Ht).
    apply (split_once_none _ _ E (ws1 ++ l) (r ++ ws2)).
    rewrite Ht at 1. rewrite H. now rewrite !string_app_assoc.
Qed.

(** ** The fetch stage *)

Lemma tidal_fold_tracks (items : list Tidal.Item) (total : Z)
    (completion : list nat) :
  forall tracks emitted,
    fst (fold_left (tidal_step items total) completion (tracks, emitted))
    = (tracks
         ++ flat_map (fun k => match nth_error items k with
                               | Some item => well_formed_tidal item
                               | None => []
                               end) completion)%list
    /\ List.length (snd (fold_left (tidal_step items total) completion
                                   (tracks, emitted)))
       = (List.length emitted + List.length completion)%nat.
Proof.
  induction completion as [|k rest IH]; intros tracks emitted.
  - simpl. rewrite app_nil_r. split; [reflexivity|lia].
  - cbn [fold_left flat_map]. unfold tidal_step at 2 4.
    destruct (IH (match nth_error items k with
                  | Some item =>
                      match process_tidal_track item with
                      | Some track => (tracks ++ [track])%list
                      | None => tracks
                      end
                  | None => tracks
                  end)
                 (emitted
                    ++ [half_progress
                          (len (match nth_error items k with
                                | Some item =>
                                    match process_tidal_track item with
                                    | Some track => (tracks ++ [track])%list
                                    | None => tracks
                                    end
                                | None => tracks
                                end)) total])%list) as [-> ->].
    split.
    + unfold well_formed_tidal.
      destruct (nth_error items k) as [item|]; [|reflexivity].
      destruct (process_tidal_track item); [|reflexivity].
      now rewrite <- app_assoc.
    + rewrite length_app. simpl. lia.
Qed.

(** Whatever the order in which the futures complete, the Tidal fetch
    returns the strings of the well-formed items of the playlist, each once:
    the order may change, nothing is lost or repeated, and one progress
    value is emitted per item. *)
Theorem tidal_tracks_are_a_permutation (p : Tidal.Playlist) (completion : list nat) :
  Permutation completion (seq 0 (List.length (Tidal.items p))) ->
  Tidal.totalNumberOfItems p <> 0%Z ->
  exists tracks emitted,
    get_tidal_playlist_info p completion
    = (Ok (tracks, Tidal.name p, Tidal.image p), emitted)
    /\ Permutation tracks (flat_map well_formed_tidal (Tidal.items p))
    /\ List.length emitted = List.length (Tidal.items p).
Proof.
  intros Hperm Hz.
  pose proof (tidal_fold_tracks (Tidal.items p) (Tidal.totalNumberOfItems p)
                completion [] []) as [Ht He].
  pose proof (tidal_fold_tracks (Tidal.items p) (Tidal.totalNumberOfItems p)
                (seq 0 (List.length (Tidal.items p))) [] []) as [Hs _].
  pose proof (tidal_fold_in_submission_order (Tidal.items p)
                (Tidal.totalNumberOfItems p) [] [] [] eq_refl) as Hi.
  change ([] ++ Tidal.items p)%list with (Tidal.items p) in Hi.
  change (List.length (@nil Tidal.Item)) with 0%nat in Hi.
  rewrite Hs in Hi. cbn [app] in Hi, Ht.
  unfold get_tidal_playlist_info.
  destruct (Tidal.items p) as [|item items] eqn:E.
  - apply Permutation_sym, Permutation_nil in Hperm. subst completion.
    exists [], []. repeat split. constructor.
  - rewrite <- E in *. apply Z.eqb_neq in Hz. rewrite Hz.
    destruct (fold_left (tidal_step (Tidal.items p) (Tidal.totalNumberOfItems p))
                        completion ([], [])) as [tracks emitted].
    cbn [fst snd] in Ht, He. exists tracks, emitted.
    split; [reflexivity|split].
    + rewrite Ht. fold (well_formed_tidal) in Hi. rewrite <- Hi.
      now apply Permutation_flat_map.
    + rewrite He. simpl. apply Permutation_length in Hperm.
      now rewrite length_seq in Hperm.
Qed.

Lemma tidal_tracks_are_a_permutation_witness :
  exists tracks emitted,
    get_tidal_playlist_info tidal_mix [1; 0]%nat
    = (Ok (tracks, "Mix", None), emitted)
    /\ Permutation tracks ["A - X"; "B - Y"]
    /\ List.length emitted = 2%nat.
Proof.
  refine (tidal_tracks_are_a_permutation tidal_mix [1; 0]%nat _ _).
  - simpl. apply perm_swap.
  - discriminate.
Defined.

Lemma spotify_tracks_ok (items : list Spotify.Track) :
  (forall t, In t items -> Spotify.artists t <> []) ->
  spotify_tracks items
  = Ok (map (fun t => Spotify.name t ++ " - " ++ hd "" (Spotify.artists t)) items).
Proof.
  induction items as [|t rest IH]; intros H; [reflexivity|].
  cbn [spotify_tracks map]. unfold spotify_track_string.
  destruct (Spotify.artists t) as [|a others] eqn:E.
  - exfalso. apply (H t); [now left|exact E].
  - rewrite IH; [reflexivity|]. intros x Hx. apply H. now right.
Qed.

Lemma spotify_tracks_fail (items : list Spotify.Track) (t : Spotify.Track) :
  In t items -> Spotify.artists t = [] ->
  spotify_tracks items = Raise "list index out of range".
Proof.
  induction items as [|x rest IH]; intros Hin Ht; [destruct Hin|].
  cbn [spotify_tracks]. unfold spotify_track_string.
  destruct Hin as [->|Hin].
  - now rewrite Ht.
  - destruct (Spotify.artists x); [reflexivity|].
    now rewrite (IH Hin Ht).
Qed.

(** The Spotify fetch is all or nothing: when every track has an artist it
    returns one string per track, in the order of the playlist, built from
    the name and the first artist; one track without artists fails the whole
    fetch, and with it the run, before anything is searched or created. *)
Theorem spotify_fetch_all_or_nothing (p : Spotify.Playlist) :
  ((forall t, In t (Spotify.items p) -> Spotify.artists t <> []) ->
   get_spotify_playlist_info p
   = Ok (map (fun t => Spotify.name t ++ " - " ++ hd "" (Spotify.artists t))
             (Spotify.items p),
         Spotify.pl_name p, hd_error (Spotify.images p)))
  /\ (forall t, In t (Spotify.items p) -> Spotify.artists t = [] ->
      get_spotify_playlist_info p = Raise "list index out of range"
      /\ forall token_set_ratio pv env playlist_source srv,
           PyStr.contains "open.spotify.com" playlist_source = true ->
           spotify pv = Ok p ->
           run token_set_ratio pv env playlist_source srv
           = (Raise "list index out of range", srv, [])).
Proof.
  split.
  - intros H. unfold get_spotify_playlist_info. now rewrite spotify_tracks_ok.
  - intros t Hin Ht.
    assert (E : get_spotify_playlist_info p = Raise "list index out of range").
    { unfold get_spotify_playlist_info. now rewrite (spotify_tracks_fail _ t Hin Ht). }
    split; [exact E|].
    intros ratio pv env src srv Hc Hp. unfold run, fetch.
    now rewrite Hc, Hp, E.
Qed.

Lemma spotify_fetch_all_or_nothing_witness :
  get_spotify_playlist_info
    (Spotify.mkPlaylist "Mix" [] [Spotify.mkTrack "A" ["X"; "Y"]; Spotify.mkTrack "B" []])
  = Raise "list index out of range"
  /\ get_spotify_playlist_info
       (Spotify.mkPlaylist "Mix" [] [Spotify.mkTrack "A" ["X"; "Y"]])
     = Ok (["A - X"], "Mix", None).
Proof.
  split.
  - refine (proj1 (proj2 (spotify_fetch_all_or_nothing _) (Spotify.mkTrack "B" []) _ eq_refl)).
    simpl. right. now left.
  - refine (proj1 (spotify_fetch_all_or_nothing
                     (Spotify.mkPlaylist "Mix" [] [Spotify.mkTrack "A" ["X"; "Y"]])) _).
    intros t [<-|[]]. discriminate.
Defined.

(** The Deezer fetch returns one string per track, in the order of the
    playlist, and emits after the k-th track the value
    [int(k / nb_tracks * 50)]; when [nb_tracks] is the number of tracks
    delivered, the last value is [50]. *)
Theorem deezer_fetch_in_order (p : Deezer.Playlist) :
  Deezer.nb_tracks p <> 0%Z ->
  get_deezer_playlist_info p
  = (Ok (map deezer_track_string (Deezer.tracks p),
         Deezer.pl_title p, Deezer.picture_xl p),
     map (fun k => half_progress (Z.of_nat k) (Deezer.nb_tracks p))
         (seq 1 (List.length (Deezer.tracks p))))
  /\ (Deezer.nb_tracks p = len (Deezer.tracks p) ->
      last (snd (get_deezer_playlist_info p)) 0%Z = 50%Z).
Proof.
  intros Hz.
  assert (E : get_deezer_playlist_info p
              = (Ok (map deezer_track_string (Deezer.tracks p),
                     Deezer.pl_title p, Deezer.picture_xl p),
                 map (fun k => half_progress (Z.of_nat k) (Deezer.nb_tracks p))
                     (seq 1 (List.length (Deezer.tracks p))))).
  { unfold get_deezer_playlist_info.
    destruct (Deezer.tracks p) as [|t rest] eqn:Et; [reflexivity|].
    apply Z.eqb_neq in Hz. rewrite Hz. now rewrite deezer_fold. }
  split; [exact E|].
  intros Hn. rewrite E. cbn [snd].
  destruct (Deezer.tracks p) as [|t rest] using rev_ind;
    [exfalso; apply Hz; rewrite Hn; reflexivity|].
  rewrite length_app. cbn [List.length].
  rewrite Nat.add_1_r, seq_S, map_app. cbn [map]. rewrite last_last.
  rewrite Hn. unfold len. rewrite length_app. cbn [List.length].
  replace (Z.of_nat (1 + List.length rest)) with (Z.of_nat (List.length rest + 1)) by lia.
  apply half_progress_full. lia.
Qed.

Lemma deezer_fetch_in_order_witness :
  get_deezer_playlist_info deezer_mix
  = (Ok (["Song - X"; "Nothing - Y"; "Missing - Z"], "Mix", Some "http://img"),
     map (fun k => half_progress (Z.of_nat k) 3) [1; 2; 3]%nat).
Proof.
  refine (proj1 (deezer_fetch_in_order deezer_mix _)). discriminate.
Defined.

(** ** The combined score *)

Section ScoreFacts.
Import PyFloat.
Local Open Scope Q_scope.

Lemma inject_nonneg (a : Z) : (0 <= a)%Z -> 0 <= inject_Z a.
Proof. intros H. change 0 with (inject_Z 0). now rewrite <- Zle_Qle. Qed.

Lemma of_int_mono (a b : Z) : (0 <= a <= b)%Z -> of_int a <= of_int b.
Proof.
  intros [Ha Hab]. unfold of_int. apply rne_mono.
  - now apply inject_nonneg.
  - now rewrite <- Zle_Qle.
Qed.

Lemma of_int_nonneg (a : Z) : (0 <= a)%Z -> 0 <= of_int a.
Proof. intros Ha. apply rne_nonneg. now apply inject_nonneg. Qed.

Lemma c07_pos : 0 < c07.
Proof. vm_compute. reflexivity. Qed.

Lemma c03_pos : 0 < c03.
Proof. vm_compute. reflexivity. Qed.

(** [title_score * 0.7 + artist_score * 0.3] on two scores *)
Lemma weighted_mono (a b a' b' : Z) :
  (0 <= a <= a')%Z -> (0 <= b <= b')%Z ->
  fadd (fmul (of_int a) c07) (fmul (of_int b) c03)
  <= fadd (fmul (of_int a') c07) (fmul (of_int b') c03).
Proof.
  intros Ha Hb.
  pose proof c07_pos. pose proof c03_pos.
  pose proof (of_int_mono a a' Ha). pose proof (of_int_mono b b' Hb).
  pose proof (of_int_nonneg a ltac:(lia)). pose proof (of_int_nonneg b ltac:(lia)).
  assert (Pa : 0 <= of_int a * c07) by (apply Qmult_le_0_compat; lra).
  assert (Pb : 0 <= of_int b * c03) by (apply Qmult_le_0_compat; lra).
  assert (Ma : of_int a * c07 <= of_int a' * c07)
    by (apply Qmult_le_compat_r; lra).
  assert (Mb : of_int b * c03 <= of_int b' * c03)
    by (apply Qmult_le_compat_r; lra).
  pose proof (rne_nonneg _ Pa). pose proof (rne_nonneg _ Pb).
  pose proof (rne_mono _ _ Pa Ma). pose proof (rne_mono _ _ Pb Mb).
  unfold fadd, fmul. apply rne_mono; lra.
Qed.

End ScoreFacts.

Section ScoreRange.

Variable token_set_ratio : string -> string -> Z.
Hypothesis ratio_range : forall s1 s2, (0 <= token_set_ratio s1 s2 <= 100)%Z.

Lemma title_score_range (title : string) (c : Plex.Track) :
  (0 <= title_score token_set_ratio title c <= 100)%Z.
Proof. unfold title_score. apply ratio_range. Qed.

Lemma artist_score_range (artist : string) (c : Plex.Track) :
  (0 <= artist_score token_set_ratio artist c <= 100)%Z.
Proof.
  unfold artist_score.
  destruct (negb (artist =? "") && truthy (Plex.originalTitle c));
    [apply ratio_range|].
  destruct (Plex.artist c); [apply ratio_range|lia].
Qed.

Lemma combined_score_bounds (title artist : string) (c : Plex.Track) (a b : Z) :
  (title_score token_set_ratio title c <= a)%Z ->
  (artist_score token_set_ratio artist c <= b)%Z ->
  (combined_score token_set_ratio title artist c
   <= PyFloat.fadd (PyFloat.fmul (PyFloat.of_int a) PyFloat.c07)
                   (PyFloat.fmul (PyFloat.of_int b) PyFloat.c03))%Q.
Proof.
  intros Ha Hb. unfold combined_score.
  pose proof (title_score_range title c). pose proof (artist_score_range artist c).
  apply weighted_mono; lia.
Qed.

End ScoreRange.

(** With [fuzz.token_set_ratio] between 0 and 100, the combined score of
    every candidate lies between 0 and 100. *)
Theorem combined_score_range
    (token_set_ratio : string -> string -> Z) (title artist : string)
    (c : Plex.Track) :
  (forall s1 s2, (0 <= token_set_ratio s1 s2 <= 100)%Z) ->
  (0 <= combined_score token_set_ratio title artist c <= 100)%Q.
Proof.
  intros Hr. split.
  - pose proof (title_score_range _ Hr title c).
    pose proof (artist_score_range _ Hr artist c).
    unfold combined_score.
    assert (E : (PyFloat.fadd (PyFloat.fmul (PyFloat.of_int 0) PyFloat.c07)
                              (PyFloat.fmul (PyFloat.of_int 0) PyFloat.c03) == 0)%Q)
      by (vm_compute; reflexivity).
    rewrite <- E. apply weighted_mono; lia.
  - pose proof (title_score_range _ Hr title c).
    pose proof (artist_score_range _ Hr artist c).
    assert (E : (PyFloat.fadd (PyFloat.fmul (PyFloat.of_int 100) PyFloat.c07)
                              (PyFloat.fmul (PyFloat.of_int 100) PyFloat.c03) == 100)%Q)
      by (vm_compute; reflexivity).
    rewrite <- E. apply combined_score_bounds; [exact Hr|lia|lia].
Qed.

Lemma word_ratio_range (s1 s2 : string) : (0 <= word_ratio s1 s2 <= 100)%Z.
Proof.
  unfold word_ratio.
  destruct ((s1 =? "") || (s2 =? "")); [lia|].
  destruct (s1 =? s2); lia.
Qed.

Lemma combined_score_range_witness :
  (0 <= combined_score word_ratio "Song" "X" (song_by_x 1) <= 100)%Q.
Proof.
  exact (combined_score_range word_ratio "Song" "X" (song_by_x 1) word_ratio_range).
Defined.

Lemma find_best_match_accepts
    (token_set_ratio : string -> string -> Z)
    (searchTracks : string -> result (list Plex.Track)) (track : string)
    (c : Plex.Track) :
  find_best_match token_set_ratio searchTracks track = Ok (Some c) ->
  exists all_tracks,
    searchTracks (fst (parse_track_info track)) = Ok all_tracks
    /\ In c all_tracks
    /\ (70 <= combined_score token_set_ratio (fst (parse_track_info track))
                             (snd (parse_track_info track)) c)%Q.
Proof.
  intros H.
  destruct (parse_track_info track) as [title artist] eqn:Hp. cbn [fst snd].
  destruct (searchTracks title) as [all_tracks|e] eqn:Hs.
  - exists all_tracks. split; [reflexivity|].
    destruct (find_best_match_threshold token_set_ratio title artist all_tracks
                searchTracks track Hp Hs) as [H1 _].
    destruct (H1 c H) as (Hin & Hge & _). now split.
  - unfold find_best_match in H. rewrite Hp, Hs in H. discriminate.
Qed.

(** With [fuzz.token_set_ratio] between 0 and 100, a candidate is returned
    as a match only if its title similarity is at least 58, and only if it
    is exactly 100 when its artist score is 0; so a track given without
    artist matches on a perfect title similarity only (the package answers
    [0] on an empty string). *)
Theorem match_needs_title_similarity
    (token_set_ratio : string -> string -> Z)
    (searchTracks : string -> result (list Plex.Track)) (track : string)
    (c : Plex.Track) :
  (forall s1 s2, (0 <= token_set_ratio s1 s2 <= 100)%Z) ->
  find_best_match token_set_ratio searchTracks track = Ok (Some c) ->
  (58 <= title_score token_set_ratio (fst (parse_track_info track)) c)%Z
  /\ (artist_score token_set_ratio (snd (parse_track_info track)) c = 0%Z ->
      title_score token_set_ratio (fst (parse_track_info track)) c = 100%Z)
  /\ ((forall s, token_set_ratio "" s = 0%Z) ->
      snd (parse_track_info track) = "" ->
      title_score token_set_ratio (fst (parse_track_info track)) c = 100%Z).
Proof.
  intros Hr Hm.
  destruct (find_best_match_accepts _ _ _ _ Hm) as (cands & _ & _ & Hge).
  set (title := fst (parse_track_info track)) in *.
  set (artist := snd (parse_track_info track)) in *.
  pose proof (title_score_range _ Hr title c) as Ht.
  pose proof (artist_score_range _ Hr artist c) as Ha.
  assert (Zero : artist_score token_set_ratio artist c = 0%Z ->
                 title_score token_set_ratio title c = 100%Z).
  { intros Hz.
    destruct (Z_le_gt_dec (title_score token_set_ratio title c) 99) as [L|G]; [|lia].
    exfalso.
    pose proof (combined_score_bounds _ Hr title artist c 99 0 L ltac:(lia)) as B.
    assert (E : (PyFloat.fadd (PyFloat.fmul (PyFloat.of_int 99) PyFloat.c07)
                              (PyFloat.fmul (PyFloat.of_int 0) PyFloat.c03) < 70)%Q)
      by (vm_compute; reflexivity).
    lra. }
  split; [|split; [exact Zero|]].
  - destruct (Z_le_gt_dec (title_score token_set_ratio title c) 57) as [L|G]; [|lia].
    exfalso.
    pose proof (combined_score_bounds _ Hr title artist c 57 100 L ltac:(lia)) as B.
    assert (E : (PyFloat.fadd (PyFloat.fmul (PyFloat.of_int 57) PyFloat.c07)
                              (PyFloat.fmul (PyFloat.of_int 100) PyFloat.c03) < 70)%Q)
      by (vm_compute; reflexivity).
    lra.
  - intros He Hart. apply Zero. rewrite Hart.
    unfold artist_score. simpl.
    destruct (Plex.artist c); [apply He|reflexivity].
Qed.

Lemma match_needs_title_similarity_witness :
  (58 <= title_score word_ratio "Song" (song_by_x 1))%Z.
Proof.
  refine (proj1 (match_needs_title_similarity word_ratio library "Song - X"
                   (song_by_x 1) word_ratio_range _)).
  vm_compute. reflexivity.
Defined.

(** ** Case *)

Lemma lower_ascii_idem (c : ascii) :
  PyStr.lower_ascii (PyStr.lower_ascii c) = PyStr.lower_ascii c.
Proof. destruct c as [[] [] [] [] [] [] [] []]; reflexivity. Qed.

Lemma lower_idem (s : string) : PyStr.lower (PyStr.lower s) = PyStr.lower s.
Proof.
  induction s as [|c s IH]; simpl; [reflexivity|].
  now rewrite lower_ascii_idem, IH.
Qed.

Lemma lower_empty (s : string) : (PyStr.lower s =? "") = (s =? "").
Proof. destruct s; reflexivity. Qed.

(** Scoring does not see the case of the track: the title and the artist in
    lower case get the same scores from every candidate, and the loop
    selects the same candidate with the same score. *)
Theorem scoring_ignores_case
    (token_set_ratio : string -> string -> Z) (title artist : string) :
  (forall c,
      combined_score token_set_ratio (PyStr.lower title) (PyStr.lower artist) c
      = combined_score token_set_ratio title artist c)
  /\ forall all_tracks,
      best_of token_set_ratio (PyStr.lower title) (PyStr.lower artist) all_tracks
      = best_of token_set_ratio title artist all_tracks.
Proof.
  assert (S : forall c,
             combined_score token_set_ratio (PyStr.lower title) (PyStr.lower artist) c
             = combined_score token_set_ratio title artist c).
  { intros c. unfold combined_score, title_score, artist_score.
    now rewrite !lower_idem, lower_empty. }
  split; [exact S|].
  intros all_tracks. unfold best_of.
  generalize (@None Plex.Track, 0%Q).
  induction all_tracks as [|c rest IH]; intros st; [reflexivity|].
  cbn [fold_left]. rewrite IH. f_equal.
  unfold best_step. now rewrite S.
Qed.

(** ** The playlist and the progress of a run *)

(** Every track of the playlist [create_plex_playlist] builds was returned
    by the library search for the title of one of the source tracks, with a
    combined score of at least 70; and when no resolution raises, each
    source track is either matched or reported as not found. *)
Theorem matches_come_from_search
    (token_set_ratio : string -> string -> Z)
    (searchTracks : string -> result (list Plex.Track)) (tracks : list string) :
  (forall m, In m (matches_of token_set_ratio searchTracks tracks) ->
     exists track all_tracks,
       In track tracks
       /\ searchTracks (fst (parse_track_info track)) = Ok all_tracks
       /\ In m all_tracks
       /\ (70 <= combined_score token_set_ratio (fst (parse_track_info track))
                                (snd (parse_track_info track)) m)%Q)
  /\ (Forall (resolves token_set_ratio searchTracks) tracks ->
      (List.length (matches_of token_set_ratio searchTracks tracks)
       + List.length (misses_of token_set_ratio searchTracks tracks)
       = List.length tracks)%nat).
Proof.
  split.
  - intros m Hm. unfold matches_of in Hm.
    apply in_flat_map in Hm as (track & Ht & Hin).
    destruct (find_best_match token_set_ratio searchTracks track)
      as [[c|]|e] eqn:E; [destruct Hin as [<-|[]]|destruct Hin|destruct Hin].
    destruct (find_best_match_accepts _ _ _ _ E) as (cands & Hs & Hc & Hge).
    now exists track, cands.
  - induction 1 as [|track rest [found Hf] _ IH]; [reflexivity|].
    cbn [matches_of misses_of flat_map filter]. rewrite Hf.
    unfold matches_of, misses_of in IH.
    destruct found; cbn [List.length app]; rewrite ?length_app; simpl; lia.
Qed.

Lemma matches_come_from_search_witness :
  (List.length (matches_of word_ratio library ["Song - X"; "Nothing"])
   + List.length (misses_of word_ratio library ["Song - X"; "Nothing"])
   = 2)%nat.
Proof.
  refine (proj2 (matches_come_from_search word_ratio library ["Song - X"; "Nothing"]) _).
  constructor; [|constructor; [|constructor]].
  - exists (Some (song_by_x 1)). vm_compute. reflexivity.
  - exists None. vm_compute. reflexivity.
Defined.

(** A call of [create_plex_playlist] that succeeds went through every
    track. *)
Lemma create_ok_inv
    (token_set_ratio : string -> string -> Z) (env : Plex.Env)
    (tracks : list string) (playlist_name : string)
    (playlist_image_url : option string) (srv srv' : Plex.Server)
    (emitted : list Z) :
  create_plex_playlist token_set_ratio env tracks playlist_name
                       playlist_image_url srv = (Ok tt, srv', emitted) ->
  tracks <> []
  /\ emitted = match_progress (len tracks) 0 (List.length tracks).
Proof.
  destruct (Plex.sectionByID env) as [search|e] eqn:Hs.
  - destruct (first_raise token_set_ratio search tracks)
      as [Hall|(pre & t & post & e & Ht & Hpre & He)].
    + destruct (matches_of token_set_ratio search tracks) as [|m ms] eqn:Hm.
      * rewrite (create_no_match _ _ _ Hs _ _ _ _ Hall Hm). discriminate.
      * destruct (Plex.createPlaylist_error env) as [e|] eqn:He.
        -- rewrite (create_server_error _ _ _ Hs _ _ _ _ e Hall); auto;
             [discriminate|congruence].
        -- rewrite (create_done _ _ _ Hs _ _ _ _ Hall); auto; [|congruence].
           intros H; inversion H; subst. split; [|reflexivity].
           intros ->. discriminate Hm.
    + rewrite (create_raise _ _ _ Hs _ _ _ _ pre t post e Ht Hpre He). discriminate.
  - unfold create_plex_playlist. rewrite Hs. discriminate.
Qed.

(** A run that ends with the [finished] signal has emitted [100] as its
    last progress value. *)
Theorem successful_run_ends_at_100
    (token_set_ratio : string -> string -> Z) (pv : Providers) (env : Plex.Env)
    (playlist_source : string) (srv srv' : Plex.Server) (emitted : list Z) :
  run token_set_ratio pv env playlist_source srv = (Ok tt, srv', emitted) ->
  emitted <> [] /\ last emitted 0%Z = 100%Z.
Proof.
  unfold run.
  destruct (fetch pv playlist_source) as [[[[tracks name] image]|e] fetched];
    [|discriminate].
  destruct (create_plex_playlist token_set_ratio env tracks name image srv)
    as [[r1 srv1] em1] eqn:C.
  intros H; inversion H; subst r1 srv1 emitted.
  destruct (create_ok_inv _ _ _ _ _ _ _ _ C) as [Hne ->].
  destruct tracks as [|t rest] using rev_ind; [congruence|]. clear IHrest.
  assert (L : last (match_progress (len (rest ++ [t])%list) 0
                                   (List.length (rest ++ [t])%list)) 0%Z = 100%Z).
  { unfold match_progress, len. rewrite length_app. cbn [List.length].
    rewrite Nat.add_1_r, seq_S, map_app. cbn [map]. rewrite last_last.
    replace (0 + Z.of_nat (1 + List.length rest))%Z
      with (Z.of_nat (S (List.length rest))) by lia.
    rewrite half_progress_full; lia. }
  assert (N : match_progress (len (rest ++ [t])%list) 0
                             (List.length (rest ++ [t])%list) <> []).
  { intros E. apply (f_equal (@List.length Z)) in E.
    rewrite match_progress_length, length_app in E. simpl in E. lia. }
  split.
  - intros E. apply app_eq_nil in E as [_ E]. contradiction.
  - now rewrite last_app_nonempty.
Qed.

Lemma successful_run_ends_at_100_witness :
  last (snd (run word_ratio (providers [1; 0]%nat) (plex None)
                 "https://www.deezer.com/playlist/1" empty_server)) 0%Z
  = 100%Z.
Proof.
  exact (proj2 (successful_run_ends_at_100 word_ratio (providers [1; 0]%nat)
                  (plex None) "https://www.deezer.com/playlist/1" empty_server
                  (Plex.mkServer
                     [Plex.mkPlaylist "Mix" [song_by_x 1] (Some "http://img")])
                  [16; 33; 50; 66; 83; 100]%Z eq_refl)).
Defined.

(** When the providers announce at least as many tracks as they deliver,
    every progress value of a run lies between 0 and 100. *)
Theorem run_progress_in_range
    (token_set_ratio : string -> string -> Z) (pv : Providers) (env : Plex.Env)
    (playlist_source : string) (srv : Plex.Server) (v : Z) :
  counts_consistent pv ->
  In v (snd (run token_set_ratio pv env playlist_source srv)) ->
  (0 <= v <= 100)%Z.
Proof.
  intros Hc.
  destruct (fetch_emits_fetch_values pv playlist_source Hc) as [[_ Fv] _].
  unfold run.
  destruct (fetch pv playlist_source) as [[[[tracks name] image]|e] fetched];
    cbn [snd] in Fv.
  - destruct (create_emits token_set_ratio env tracks name image srv)
      as (k & Ek & Hk & _).
    destruct (create_plex_playlist token_set_ratio env tracks name image srv)
      as [[r1 srv1] em1].
    cbn [snd] in *. subst em1. intros Hv.
    apply in_app_or in Hv as [Hv|Hv].
    + destruct (Fv v Hv) as [? _]. lia.
    + apply match_progress_in in Hv as (j & Hj & ->).
      pose proof (half_progress_nonneg (Z.of_nat j) (len tracks)).
      pose proof (half_progress_le_50 (Z.of_nat j) (len tracks)).
      unfold len in *. lia.
  - cbn [snd]. intros Hv. destruct (Fv v Hv) as [? _]. lia.
Qed.

Lemma run_progress_in_range_witness :
  (0 <= nth 4 (snd (run word_ratio (providers [1; 0]%nat) (plex None)
                        "https://www.deezer.com/playlist/1" empty_server)) 0
   <= 100)%Z.
Proof.
  refine (run_progress_in_range word_ratio (providers [1; 0]%nat) (plex None)
            "https://www.deezer.com/playlist/1" empty_server _ _ _).
  - split.
    + intros p H. inversion H; subst. vm_compute. discriminate.
    + intros p H. inversion H; subst. split.
      * vm_compute. discriminate.
      * simpl. apply perm_swap.
  - vm_compute. tauto.
Defined.

(** ** The other fetchers *)

Lemma deezer_tracks_fold (total : Z) (l : list Deezer.Track) :
  forall tracks emitted,
    fold_left (deezer_tracks_step total) l (tracks, emitted, len tracks)
    = (fst (fold_left (deezer_step total) l (tracks, emitted)),
       snd (fold_left (deezer_step total) l (tracks, emitted)),
       len (fst (fold_left (deezer_step total) l (tracks, emitted)))).
Proof.
  induction l as [|t rest IH]; intros tracks emitted; [reflexivity|].
  cbn [fold_left]. unfold deezer_tracks_step at 2. unfold deezer_step at 2 4 6.
  assert (L : len (tracks ++ [deezer_track_string t])%list = (len tracks + 1)%Z).
  { unfold len. rewrite length_app. simpl. lia. }
  rewrite L, <- L. apply IH.
Qed.

(** [get_deezer_tracks] and [get_deezer_playlist_info] fetch alike: the same
    tracks in the same order and the same progress values; they differ in
    the error only, which [get_deezer_tracks] wraps in its own message. *)
Theorem deezer_fetchers_agree (p : Deezer.Playlist) :
  get_deezer_tracks (Ok p)
  = match get_deezer_playlist_info p with
    | (Ok (tracks, _, _), emitted) => (Ok tracks, emitted)
    | (Raise e, emitted) => (Raise (deezer_tracks_error e), emitted)
    end.
Proof.
  unfold get_deezer_tracks, get_deezer_playlist_info.
  destruct (Deezer.tracks p) as [|t rest]; [reflexivity|].
  destruct (Deezer.nb_tracks p =? 0)%Z; [reflexivity|].
  change 0%Z with (len (@nil string)).
  rewrite deezer_tracks_fold.
  now destruct (fold_left (deezer_step (Deezer.nb_tracks p)) (t :: rest) ([], [])).
Qed.

Lemma spotify_pages_loop_raises (pages : list SpotifyPage.t) :
  pages <> [] ->
  forall tracks emitted,
    exists e emitted', spotify_pages_loop pages tracks emitted = (Raise e, emitted').
Proof.
  induction pages as [|results following IH]; intros Hne tracks emitted;
    [congruence|].
  cbn [spotify_pages_loop].
  destruct (spotify_tracks (SpotifyPage.items results)) as [new_tracks|e]; [|eauto].
  destruct (truthy (SpotifyPage.next results)); [|eauto].
  destruct following as [|results' rest]; [eauto|].
  destruct (SpotifyPage.total results' =? 0)%Z; [eauto|].
  apply IH. discriminate.
Qed.

(** [get_spotify_tracks] never returns the tracks of a playlist: as soon as
    the client answers with a page the call ends in the [ValueError] of its
    handler (after the last page [results] is [None] when its [total] is
    read), and so it does without a client; the only list it can return is
    the empty one, when the first answer is empty. *)
Theorem get_spotify_tracks_never_returns_tracks
    (has_client : bool) (pages : list SpotifyPage.t) :
  (pages <> [] \/ has_client = false ->
   exists e emitted,
     get_spotify_tracks has_client pages = (Raise (spotify_tracks_error e), emitted))
  /\ (forall tracks emitted,
        get_spotify_tracks has_client pages = (Ok tracks, emitted) ->
        tracks = [] /\ emitted = [] /\ pages = []).
Proof.
  unfold get_spotify_tracks. split.
  - intros H. destruct has_client; [|eauto].
    destruct H as [H|H]; [|discriminate].
    destruct (spotify_pages_loop_raises pages H [] []) as (e & em & ->). eauto.
  - intros tracks emitted. destruct has_client; [|discriminate].
    destruct pages as [|results following].
    + simpl. intros H; inversion H. auto.
    + destruct (spotify_pages_loop_raises (results :: following)
                  ltac:(discriminate) [] []) as (e & em & ->).
      discriminate.
Qed.

Lemma get_spotify_tracks_never_returns_tracks_witness :
  exists e emitted,
    get_spotify_tracks true
      [SpotifyPage.mk [Spotify.mkTrack "A" ["X"]] (Some "page2") 2;
       SpotifyPage.mk [Spotify.mkTrack "B" ["Y"]] None 2]
    = (Raise (spotify_tracks_error e), emitted).
Proof.
  refine (proj1 (get_spotify_tracks_never_returns_tracks true _) _).
  left. discriminate.
Defined.

(** ** The token cache *)

(** A token fetched by [get_token] is served from the object, without a
    request, at every time before the expiry the answer announced
    ([accessTokenExpirationTimestampMs / 1000]); from the expiry on the next
    call makes a request again. *)
Theorem token_is_reused_until_expiry
    (self : SpotifyAnonymousAuth.t) (now : Q) (token : string) (ms : Z) :
  token <> "" ->
  truthy (SpotifyAnonymousAuth.access_token self)
  && PyFloat.fgt (SpotifyAnonymousAuth.token_expiration self) now = false ->
  SpotifyAnonymousAuth.get_token self now
    (Ok (SpotifyAnonymousAuth.mkAnswer (Some token) (Some ms)))
  = (Ok token,
     SpotifyAnonymousAuth.mk (Some token) (PyFloat.int_truediv ms 1000), true)
  /\ (forall now' answer,
        (now' < PyFloat.int_truediv ms 1000)%Q ->
        SpotifyAnonymousAuth.get_token
          (SpotifyAnonymousAuth.mk (Some token) (PyFloat.int_truediv ms 1000))
          now' answer
        = (Ok token,
           SpotifyAnonymousAuth.mk (Some token) (PyFloat.int_truediv ms 1000),
           false))
  /\ (forall now' answer,
        (PyFloat.int_truediv ms 1000 <= now')%Q ->
        snd (SpotifyAnonymousAuth.get_token
               (SpotifyAnonymousAuth.mk (Some token) (PyFloat.int_truediv ms 1000))
               now' answer)
        = true).
Proof.
  intros Hne Hmiss. unfold SpotifyAnonymousAuth.get_token.
  split; [now rewrite Hmiss|].
  cbn [SpotifyAnonymousAuth.access_token SpotifyAnonymousAuth.token_expiration
       truthy or_empty].
  apply String.eqb_neq in Hne. rewrite Hne. cbn [negb andb].
  split.
  - intros now' answer Hlt. apply fgt_true in Hlt. now rewrite Hlt.
  - intros now' answer Hge. apply fgt_false in Hge. rewrite Hge.
    destruct answer as [[[tok|] [m|]]|e]; reflexivity.
Qed.

Lemma token_is_reused_until_expiry_witness :
  SpotifyAnonymousAuth.get_token
    (SpotifyAnonymousAuth.mk (Some "tok") (PyFloat.int_truediv 2500 1000))
    2%Q (Raise "offline")
  = (Ok "tok",
     SpotifyAnonymousAuth.mk (Some "tok") (PyFloat.int_truediv 2500 1000), false).
Proof.
  refine (proj1 (proj2 (token_is_reused_until_expiry SpotifyAnonymousAuth.init 1%Q
                          "tok" 2500 _ eq_refl)) 2%Q (Raise "offline") _).
  - discriminate.
  - vm_compute. reflexivity.
Defined.

(** ** Selecting playlists by title *)

Lemma find_first {A : Type} (f : A -> bool) (l : list A) (x : A) :
  find f l = Some x ->
  f x = true
  /\ exists pre post, l = (pre ++ x :: post)%list /\ forall y, In y pre -> f y = false.
Proof.
  induction l as [|a l IH]; [discriminate|].
  simpl. destruct (f a) eqn:E.
  - intros H; inversion H; subst. split; [exact E|].
    exists [], l. split; [reflexivity|intros y []].
  - intros H. destruct (IH H) as (Hx & pre & post & -> & Hpre).
    split; [exact Hx|]. exists (a :: pre), post. split; [reflexivity|].
    intros y [<-|Hy]; auto.
Qed.

(** The playlist that is deleted or exported for a selected item is the
    first one with the title of the item: a playlist that comes after
    another one with the same title is never deleted and never exported,
    whatever is selected. *)
Theorem selected_playlists_are_first_by_title
    (is_true : Plex.Playlist -> bool)
    (playlists : list Plex.Playlist) (selected : list string) (p : Plex.Playlist) :
  In p (selected_playlists is_true playlists selected) ->
  In (Plex.pl_title p) selected
  /\ exists pre post,
       playlists = (pre ++ p :: post)%list
       /\ forall q, In q pre -> Plex.pl_title q <> Plex.pl_title p.
Proof.
  unfold selected_playlists, playlist_by_title. intros H.
  apply in_flat_map in H as (text & Ht & Hin).
  destruct (find (fun p0 => Plex.pl_title p0 =? text) playlists) as [x|] eqn:E;
    [|destruct Hin].
  destruct (is_true x); [|destruct Hin].
  destruct Hin as [<-|[]].
  destruct (find_first _ _ _ E) as (Hx & pre & post & -> & Hpre).
  apply String.eqb_eq in Hx. subst text.
  split; [exact Ht|]. exists pre, post. split; [reflexivity|].
  intros q Hq. apply String.eqb_neq. now apply Hpre.
Qed.

Lemma selected_playlists_are_first_by_title_witness :
  exists pre post,
    [Plex.mkPlaylist "Mix" [song_by_x 1] None; Plex.mkPlaylist "Mix" [song_by_x 2] None]
    = (pre ++ Plex.mkPlaylist "Mix" [song_by_x 1] None :: post)%list
    /\ forall q, In q pre -> Plex.pl_title q <> "Mix".
Proof.
  refine (proj2 (selected_playlists_are_first_by_title (fun _ => true)
                   [Plex.mkPlaylist "Mix" [song_by_x 1] None;
                    Plex.mkPlaylist "Mix" [song_by_x 2] None]
                   ["Mix"; "Mix"] (Plex.mkPlaylist "Mix" [song_by_x 1] None) _)).
  simpl. now left.
Defined.

(** ** Playlist files *)

Lemma mentions_app (c : ascii) (s1 s2 : string) :
  mentions c (s1 ++ s2) = mentions c s1 || mentions c s2.
Proof.
  induction s1 as [|a s1 IH]; simpl; [reflexivity|].
  now rewrite IH, orb_assoc.
Qed.

Lemma universal_newlines_id (s : string) :
  mentions CR s = false -> universal_newlines s = s.
Proof.
  induction s as [|c s IH]; simpl; [reflexivity|].
  intros H. apply orb_false_elim in H as [Hc Hs].
  now rewrite Hc, IH.
Qed.

Lemma readlines_line (file rest : string) :
  mentions LF file = false ->
  readlines (file ++ String LF rest) = (file ++ String LF "") :: readlines rest.
Proof.
  induction file as [|c file IH]; intros H.
  - cbn [append readlines]. now rewrite Ascii.eqb_refl.
  - simpl in H. apply orb_false_elim in H as [Hc Hf].
    cbn [append readlines]. rewrite Hc, (IH Hf). reflexivity.
Qed.

Lemma concat_cons_line (file : string) (files : list string) :
  String.concat "" (map (fun f => f ++ String LF "") (file :: files))
  = file ++ String LF (String.concat "" (map (fun f => f ++ String LF "") files)).
Proof.
  cbn [map String.concat].
  destruct (map (fun f => f ++ String LF "") files) eqn:M.
  - reflexivity.
  - simpl. now rewrite string_app_assoc.
Qed.

Lemma concat_lines_mentions (c : ascii) (files : list string) :
  Forall (fun file => mentions c file = false) files ->
  c <> LF ->
  mentions c (String.concat "" (map (fun file => file ++ String LF "") files)) = false.
Proof.
  intros H Hc. induction H as [|file files Hf _ IH]; [reflexivity|].
  rewrite concat_cons_line, mentions_app, Hf. cbn [mentions orb].
  rewrite IH. destruct (Ascii.eqb_spec LF c); [congruence|reflexivity].
Qed.

Lemma readlines_concat (files : list string) :
  Forall (fun file => mentions LF file = false) files ->
  readlines (String.concat "" (map (fun f => f ++ String LF "") files))
  = map (fun f => f ++ String LF "") files.
Proof.
  induction 1 as [|file files Hf _ IH]; [reflexivity|].
  rewrite concat_cons_line, readlines_line by exact Hf.
  now rewrite IH.
Qed.

Lemma rstrip_app_space (s : string) (c : ascii) :
  PyStr.is_space c = true -> PyStr.rstrip (s ++ String c "") = PyStr.rstrip s.
Proof.
  intros Hc. induction s as [|a s IH]; simpl.
  - now rewrite Hc.
  - now rewrite IH.
Qed.

Lemma lstrip_app_space (s : string) (c : ascii) :
  PyStr.is_space c = true ->
  PyStr.lstrip (s ++ String c "")
  = match PyStr.lstrip s with
    | "" => ""
    | String a t => String a t ++ String c ""
    end.
Proof.
  intros Hc. induction s as [|a s IH]; simpl.
  - now rewrite Hc.
  - destruct (PyStr.is_space a); [exact IH|reflexivity].
Qed.

Lemma strip_app_space (s : string) (c : ascii) :
  PyStr.is_space c = true -> PyStr.strip (s ++ String c "") = PyStr.strip s.
Proof.
  intros Hc. unfold PyStr.strip. rewrite lstrip_app_space by exact Hc.
  destruct (PyStr.lstrip s) as [|a t]; [reflexivity|].
  now apply rstrip_app_space.
Qed.

Lemma startswith_app_line (s : string) :
  PyStr.startswith (s ++ String LF "") "#" = PyStr.startswith s "#".
Proof.
  destruct s as [|a s]; [reflexivity|].
  unfold PyStr.startswith. cbn [append PyStr.strip_prefix].
  destruct (Ascii.eqb "#" a); reflexivity.
Qed.

Lemma get_local_tracks_cons (line : string) (content : list string) :
  get_local_tracks (line :: content)
  = if negb (PyStr.strip line =? "") && negb (PyStr.startswith line "#")
    then PyStr.strip line :: get_local_tracks content
    else get_local_tracks content.
Proof.
  unfold get_local_tracks. cbn [filter].
  now destruct (negb (PyStr.strip line =? "") && negb (PyStr.startswith line "#")).
Qed.

Lemma get_local_tracks_lines (files : list string) :
  get_local_tracks (map (fun f => f ++ String LF "") files) = get_local_tracks files.
Proof.
  induction files as [|file files IH]; [reflexivity|].
  cbn [map]. rewrite !get_local_tracks_cons, IH.
  now rewrite strip_app_space, startswith_app_line by reflexivity.
Qed.

Lemma get_local_tracks_clean (files : list string) :
  Forall (fun file => PyStr.strip file = file /\ file <> ""
                      /\ PyStr.startswith file "#" = false) files ->
  get_local_tracks files = files.
Proof.
  induction 1 as [|file files (Hs & Hne & Hc) _ IH]; [reflexivity|].
  rewrite get_local_tracks_cons, Hs, Hc, IH.
  apply String.eqb_neq in Hne. now rewrite Hne.
Qed.

(** Reading back the file [export_playlist] wrote gives the exported paths:
    when no path contains a carriage return or a line feed, the reader of
    [import_m3u8_playlist] and [get_local_tracks] returns what it returns on
    the list of the paths itself (the header line is dropped as a comment),
    and that is the list of the paths, in order, when each of them is an
    ASCII string (on which [str.strip] removes the ASCII whitespace only),
    stripped, non-empty and does not start with [#]. *)
Theorem export_then_read_gives_paths (parts : list (list string)) :
  Forall (fun file => mentions LF file = false /\ mentions CR file = false)
         (List.concat parts) ->
  read_playlist (export_playlist parts) = get_local_tracks (List.concat parts)
  /\ (Forall (fun file => isascii file = true
                          /\ PyStr.strip file = file /\ file <> ""
                          /\ PyStr.startswith file "#" = false)
             (List.concat parts) ->
      read_playlist (export_playlist parts) = List.concat parts).
Proof.
  intros H.
  assert (Hlf : Forall (fun file => mentions LF file = false) (List.concat parts))
    by (eapply Forall_impl; [|exact H]; simpl; tauto).
  assert (Hcr : Forall (fun file => mentions CR file = false) (List.concat parts))
    by (eapply Forall_impl; [|exact H]; simpl; tauto).
  assert (E : read_playlist (export_playlist parts)
              = get_local_tracks (List.concat parts)).
  { unfold read_playlist, export_playlist.
    rewrite universal_newlines_id.
    - change ("#EXTM3U" ++ String LF "" ++ ?x) with ("#EXTM3U" ++ String LF x).
      rewrite readlines_line by reflexivity.
      rewrite readlines_concat by exact Hlf.
      rewrite get_local_tracks_cons. cbn [andb negb].
      replace (negb (PyStr.strip ("#EXTM3U" ++ String LF "") =? "")
               && negb (PyStr.startswith ("#EXTM3U" ++ String LF "") "#"))
        with false by reflexivity.
      apply get_local_tracks_lines.
    - rewrite !mentions_app.
      rewrite (concat_lines_mentions CR _ Hcr) by discriminate. reflexivity. }
  split; [exact E|].
  intros Hclean. rewrite E. apply get_local_tracks_clean.
  eapply Forall_impl; [|exact Hclean]. simpl. tauto.
Qed.

Lemma export_then_read_gives_paths_witness :
  read_playlist (export_playlist [["/music/a b.mp3"; "/music/c.flac"]; ["d.mp3"]])
  = ["/music/a b.mp3"; "/music/c.flac"; "d.mp3"].
Proof.
  refine (proj2 (export_then_read_gives_paths
                   [["/music/a b.mp3"; "/music/c.flac"]; ["d.mp3"]] _) _).
  - repeat constructor.
  - repeat constructor; discriminate.
Defined.

Lemma endswith_app (base suffix : string) : endswith (base ++ suffix) suffix = true.
Proof.
  induction base as [|c base IH].
  - destruct suffix; cbn [append endswith]; now rewrite String.eqb_refl.
  - cbn [append endswith].
    destruct (String c (base ++ suffix) =? suffix); [reflexivity|exact IH].
Qed.

Lemma endswith_inv (s suffix : string) :
  endswith s suffix = true -> exists base, s = base ++ suffix.
Proof.
  induction s as [|c s IH]; cbn [endswith].
  - destruct (String.eqb_spec "" suffix) as [<-|]; [|discriminate].
    intros _. now exists "".
  - destruct (String.eqb_spec (String c s) suffix) as [<-|].
    + intros _. now exists "".
    + intros H. destruct (IH H) as [base ->]. now exists (String c base).
Qed.

Lemma rsplit_once_m3u8 (base : string) :
  rsplit_once "." (base ++ ".m3u8") = Some (base, "m3u8").
Proof.
  induction base as [|c base IH]; [reflexivity|].
  cbn [append rsplit_once]. now rewrite IH.
Qed.

Lemma m3u_is_not_m3u8 (base base' : string) : base ++ ".m3u" <> base' ++ ".m3u8".
Proof.
  revert base'. induction base as [|c base IH]; intros base' H.
  - apply (f_equal String.length) in H. rewrite !string_length_app in H.
    simpl in H. lia.
  - destruct base' as [|c' base'].
    + simpl in H. inversion H as [[Hc Hb]].
      assert (L : String.length (base ++ ".m3u") = 4%nat) by now rewrite Hb.
      rewrite string_length_app in L. simpl in L.
      destruct base; [discriminate Hb|simpl in L; lia].
    + simpl in H. inversion H. eapply IH; eauto.
Qed.

(** [upload_playlist] turns a path that ends in [.m3u8] into the same path
    without the final [8], whatever dots the path has before; any other path
    is left as it is; and the path it uploads never ends in [.m3u8]. *)
Theorem upload_path_drops_the_8 :
  (forall base, upload_path (base ++ ".m3u8") = base ++ ".m3u")
  /\ (forall path, endswith path ".m3u8" = false -> upload_path path = path)
  /\ (forall path, endswith (upload_path path) ".m3u8" = false).
Proof.
  assert (A : forall base, upload_path (base ++ ".m3u8") = base ++ ".m3u").
  { intros base. unfold upload_path. now rewrite endswith_app, rsplit_once_m3u8. }
  split; [exact A|split].
  - intros path H. unfold upload_path. now rewrite H.
  - intros path. destruct (endswith path ".m3u8") eqn:E.
    + destruct (endswith_inv _ _ E) as [base ->]. rewrite A.
      destruct (endswith (base ++ ".m3u") ".m3u8") eqn:E'; [|reflexivity].
      destruct (endswith_inv _ _ E') as [base' Hb].
      exfalso. exact (m3u_is_not_m3u8 _ _ Hb).
    + unfold upload_path. now rewrite E.
Qed.

Lemma upload_path_drops_the_8_witness : upload_path "mix.m3u" = "mix.m3u".
Proof.
  exact (proj1 (proj2 upload_path_drops_the_8) "mix.m3u" eq_refl).
Defined.

(** ** Importing a playlist file *)

Section PercentFacts.
Import PyFloat.
Local Open Scope Q_scope.

Lemma percent_progress_unfold (a t : Z) :
  percent_progress a t = py_int (rne (rne (inject_Z a / inject_Z t) * 100)).
Proof.
  unfold percent_progress, fmul, int_truediv.
  replace (of_int 100) with 100 by (vm_compute; reflexivity). reflexivity.
Qed.

Lemma floor_percent_mono (x y : Q) :
  0 <= x -> x <= y ->
  (py_int (rne (rne x * 100)) <= py_int (rne (rne y * 100)))%Z.
Proof.
  intros Hx Hxy.
  pose proof (rne_nonneg x Hx) as Nx.
  pose proof (rne_mono x y Hx Hxy) as M.
  assert (N1 : 0 <= rne (rne x * 100)) by (apply rne_nonneg; lra).
  assert (N2 : 0 <= rne (rne y * 100)) by (apply rne_nonneg; lra).
  rewrite !py_int_floor by assumption.
  apply Qfloor_resp_le, rne_mono; lra.
Qed.

Lemma percent_progress_mono (a b t : Z) :
  (0 <= a <= b)%Z -> (0 < t)%Z -> (percent_progress a t <= percent_progress b t)%Z.
Proof.
  intros [Ha Hab] Ht. rewrite !percent_progress_unfold.
  apply floor_percent_mono; [now apply quotient_nonneg|now apply quotient_mono].
Qed.

Lemma percent_progress_nonneg (a t : Z) :
  (0 <= a)%Z -> (0 < t)%Z -> (0 <= percent_progress a t)%Z.
Proof.
  intros Ha Ht. rewrite percent_progress_unfold.
  assert (E : py_int (rne (rne 0 * 100)) = 0%Z) by (vm_compute; reflexivity).
  rewrite <- E. apply floor_percent_mono; [lra|now apply quotient_nonneg].
Qed.

Lemma percent_progress_le_100 (a t : Z) :
  (0 <= a <= t)%Z -> (0 < t)%Z -> (percent_progress a t <= 100)%Z.
Proof.
  intros [Ha Hat] Ht. rewrite percent_progress_unfold.
  assert (E : py_int (rne (rne 1 * 100)) = 100%Z) by (vm_compute; reflexivity).
  rewrite <- E. apply floor_percent_mono; [now apply quotient_nonneg|].
  apply Qle_shift_div_r; [now apply inject_pos|].
  rewrite Qmult_1_l. now rewrite <- Zle_Qle.
Qed.

Lemma percent_progress_full (t : Z) : (0 < t)%Z -> percent_progress t t = 100%Z.
Proof.
  intros Ht. apply Z.le_antisymm.
  - apply percent_progress_le_100; lia.
  - rewrite percent_progress_unfold.
    assert (E : py_int (rne (rne 1 * 100)) = 100%Z) by (vm_compute; reflexivity).
    rewrite <- E. apply floor_percent_mono; [lra|].
    apply Qle_shift_div_l; [now apply inject_pos|].
    rewrite Qmult_1_l. apply Qle_refl.
Qed.

End PercentFacts.

(** The loop sets one value per track it searched, and keeps the first
    result of every search that has one. *)
Lemma import_loop_values (search : string -> result (list Plex.Track))
    (total : Z) (tracks : list string) :
  forall i plex_tracks values,
    exists k,
      (k <= List.length tracks)%nat
      /\ snd (import_loop search total i tracks plex_tracks values)
         = (values
              ++ map (fun j => percent_progress (i + Z.of_nat j) total) (seq 1 k))%list
      /\ (forall found,
            fst (import_loop search total i tracks plex_tracks values) = Ok found ->
            k = List.length tracks
            /\ (List.length plex_tracks <= List.length found)%nat).
Proof.
  induction tracks as [|track rest IH]; intros i plex_tracks values.
  - exists 0%nat. simpl. rewrite app_nil_r.
    split; [lia|split; [reflexivity|]].
    intros found H; inversion H; subst. split; [reflexivity|lia].
  - cbn [import_loop]. destruct (search track) as [search_result|e].
    + destruct (IH (i + 1)%Z
                   (match search_result with
                    | first :: _ => (plex_tracks ++ [first])%list
                    | [] => plex_tracks
                    end)
                   (values ++ [percent_progress (i + 1) total])%list)
        as (k & Hk & -> & Hok).
      exists (S k). split; [simpl; lia|split].
      * rewrite <- app_assoc. cbn [seq map app]. do 2 f_equal.
        rewrite <- (seq_shift k 1), map_map. apply map_ext. intros j.
        f_equal. lia.
      * intros found Hf. destruct (Hok found Hf) as [-> Hl].
        split; [reflexivity|].
        destruct search_result; [lia|]. rewrite length_app in Hl. simpl in Hl. lia.
    + exists 0%nat. simpl. rewrite app_nil_r.
      split; [lia|split; [reflexivity|discriminate]].
Qed.

(** [import_m3u8_playlist] either shows a warning and leaves the server as
    it was, or adds exactly one playlist, named after the number of
    playlists there were, with at least one track.  The values it sets the
    progress bar to never decrease and lie between 0 and 100, and when the
    playlist is created the last one is 100. *)
Theorem import_m3u8_playlist_outcome
    (text : result string)
    (section : result (string -> result (list Plex.Track)))
    (createPlaylist_error : option string) (srv : Plex.Server)
    (warning : option string) (srv' : Plex.Server) (values : list Z) :
  import_m3u8_playlist text section createPlaylist_error srv
  = (warning, srv', values) ->
  ((exists e, warning = Some (importing_error e)) /\ srv' = srv
   \/ warning = None
      /\ (exists items,
             items <> []
             /\ Plex.playlists srv'
                = (Plex.playlists srv
                     ++ [Plex.mkPlaylist (imported_playlist_name srv) items None])%list)
      /\ last values 0%Z = 100%Z)
  /\ StronglySorted Z.le values
  /\ forall v, In v values -> (0 <= v <= 100)%Z.
Proof.
  unfold import_m3u8_playlist.
  destruct text as [text|e].
  2:{ intros H; inversion H; subst.
      split; [left; eauto|split; [constructor|intros v []]]. }
  destruct section as [search|e].
  2:{ intros H; inversion H; subst.
      split; [left; eauto|split; [constructor|intros v []]]. }
  set (tracks := read_playlist text).
  destruct (import_loop_values search (len tracks) tracks 0 [] [])
    as (k & Hk & Hv & Hok).
  cbn [app] in Hv.
  assert (Vals : forall vs, vs = snd (import_loop search (len tracks) 0 tracks [] []) ->
                 StronglySorted Z.le vs /\ forall v, In v vs -> (0 <= v <= 100)%Z).
  { intros vs ->. rewrite Hv.
    destruct tracks as [|t rest] eqn:Et.
    - replace k with 0%nat by (simpl in Hk; lia).
      split; [constructor|intros v []].
    - assert (Hpos : (0 < len (t :: rest))%Z) by (unfold len; simpl; lia).
      split.
      + replace (map (fun j => percent_progress (0 + Z.of_nat j) (len (t :: rest)))
                     (seq 1 k))
          with (map (fun c => percent_progress c (len (t :: rest)))
                    (map Z.of_nat (seq 1 k)))
          by (rewrite map_map; reflexivity).
        apply sorted_map with (lo := 0%Z).
        * intros a b Hab. now apply percent_progress_mono.
        * apply Forall_forall. intros y Hy.
          apply in_map_iff in Hy as (x & <- & _). lia.
        * apply sorted_seq.
      + intros v Hin. apply in_map_iff in Hin as (j & <- & Hj).
        apply in_seq in Hj. split.
        * apply percent_progress_nonneg; lia.
        * apply percent_progress_le_100; [|exact Hpos].
          unfold len. lia. }
  destruct (import_loop search (len tracks) 0 tracks [] []) as [[found|e] vs] eqn:L;
    cbn [fst snd] in *.
  - destruct found as [|first others].
    + intros H; inversion H; subst. split; [left; eauto|now apply Vals].
    + destruct createPlaylist_error as [e|].
      * intros H; inversion H; subst. split; [left; eauto|now apply Vals].
      * intros H; inversion H; subst. split; [|now apply Vals].
        right. split; [reflexivity|split].
        -- exists (first :: others). split; [discriminate|reflexivity].
        -- destruct (Hok _ eq_refl) as [-> Hlen].
           destruct tracks as [|t rest] using rev_ind.
           ++ simpl in L. inversion L.
           ++ clear IHrest. rewrite length_app. cbn [List.length].
              rewrite Nat.add_1_r, seq_S, map_app. cbn [map]. rewrite last_last.
              unfold len. rewrite length_app. cbn [List.length].
              replace (0 + Z.of_nat (1 + List.length rest))%Z
                with (Z.of_nat (List.length rest + 1)) by lia.
              apply percent_progress_full. lia.
  - intros H; inversion H; subst. split; [left; eauto|now apply Vals].
Qed.

Lemma import_m3u8_playlist_outcome_witness :
  StronglySorted Z.le
    (snd (import_m3u8_playlist (Ok (export_playlist [["Song"; "Nothing"]]))
                               (Ok library) None empty_server)).
Proof.
  exact (proj1 (proj2 (import_m3u8_playlist_outcome
                         (Ok (export_playlist [["Song"; "Nothing"]]))
                         (Ok library) None empty_server None
                         (Plex.mkServer
                            [Plex.mkPlaylist "Imported Playlist 1" [song_by_x 1] None])
                         [50; 100]%Z eq_refl))).
Defined.
